(** * A shallow embedding of the live audio session engine

    The development follows [src/services/geminiLiveService.ts] (the class
    [GeminiLiveService]) and the transcript handler of [src/App.tsx].

    - JavaScript numbers that carry times (the audio clock, [nextStartTime],
      buffer durations) are exact rationals [Q].
    - The object fields of [GeminiLiveService] are the fields of one record,
      threaded through a small state-and-trace monad [M]: every call of a
      callback and every call into the Web Audio / media objects is recorded
      in the trace, in program order.
    - A JavaScript [Set] iterates in insertion order, so [sources] is a list
      of node identities.
    - Optional chaining [a?.b] is the bind of the option monad; an access
      without [?.] on a value that is absent throws a [TypeError]. *)

From Stdlib Require Import QArith Qminmax Lqa.
From stdpp Require Import base option list strings.

Close Scope Q_scope.
Open Scope string_scope.
Open Scope list_scope.

(** ** Types of [src/types.ts] *)

Inductive ConnectionStatus := DISCONNECTED | CONNECTING | CONNECTED | ERROR.

#[global] Instance ConnectionStatus_eq_dec : EqDecision ConnectionStatus.
Proof. solve_decision. Defined.

(** JavaScript truthiness of a string: only the empty string is falsy. *)
Definition truthy (s : string) : bool :=
  match s with
  | EmptyString => false
  | String _ _ => true
  end.

(** [Math.max] on the two numbers the code passes to it. *)
Definition Math_max (a b : Q) : Q := Qmax a b.

(** ** The inbound wire message ([LiveServerMessage] of the SDK)

    Only the fields that [handleMessage] reads. *)
Module Wire.

(** A transcription with its text: the deltas considered here carry one
    (the SDK types [text] as optional). *)
Record Transcription := { text : string }.
Record Blob := { data : option string }.
Record Part := { inlineData : option Blob }.

(** [Content.parts] is optional in the type of the SDK. *)
Record Content := { parts : option (list Part) }.

Record LiveServerContent := {
  outputTranscription : option Transcription;
  inputTranscription : option Transcription;
  turnComplete : bool;
  modelTurn : option Content;
  interrupted : bool
}.

Record LiveServerMessage := { serverContent : option LiveServerContent }.

(** [message.serverContent?.outputTranscription] *)
Definition get_outputTranscription (message : LiveServerMessage) : option Transcription :=
  serverContent message ≫= outputTranscription.

(** [message.serverContent?.inputTranscription] *)
Definition get_inputTranscription (message : LiveServerMessage) : option Transcription :=
  serverContent message ≫= inputTranscription.

(** [message.serverContent?.turnComplete], as a condition *)
Definition get_turnComplete (message : LiveServerMessage) : bool :=
  default false (turnComplete <$> serverContent message).

(** [message.serverContent?.interrupted], as a condition *)
Definition get_interrupted (message : LiveServerMessage) : bool :=
  default false (interrupted <$> serverContent message).

(** What the evaluation of an expression gives: its value, or the
    [TypeError] it throws. *)
Inductive Completion (A : Type) :=
  | Normal (value : A)
  | TypeError.
Arguments Normal {A} value.
Arguments TypeError {A}.

(** [message.serverContent?.modelTurn?.parts[0]?.inlineData?.data].
    The chain stops with [undefined] at an absent [serverContent] or
    [modelTurn], but [parts] is indexed without [?.]: with a [modelTurn]
    that has no [parts], [undefined[0]] throws. *)
Definition get_base64Audio (message : LiveServerMessage)
  : Completion (option string) :=
  match serverContent message ≫= modelTurn with
  | None => Normal None
  | Some turn =>
      match parts turn with
      | None => TypeError
      | Some elements =>
          Normal (part ← elements !! 0%nat; blob ← inlineData part; data blob)
      end
  end.


(** Messages with a single field. *)

(** A transcript delta for one speaker. *)
Definition delta_message (isUser : bool) (txt : string) : LiveServerMessage :=
  {| serverContent := Some
       (if isUser then
          {| outputTranscription := None;
             inputTranscription := Some {| text := txt |};
             turnComplete := false; modelTurn := None; interrupted := false |}
        else
          {| outputTranscription := Some {| text := txt |};
             inputTranscription := None;
             turnComplete := false; modelTurn := None; interrupted := false |}) |}.

(** A turn-complete message. *)
Definition turn_complete_message : LiveServerMessage :=
  {| serverContent := Some
       {| outputTranscription := None; inputTranscription := None;
          turnComplete := true; modelTurn := None; interrupted := false |} |}.

(** An audio chunk. *)
Definition audio_message (encoded : string) : LiveServerMessage :=
  {| serverContent := Some
       {| outputTranscription := None; inputTranscription := None;
          turnComplete := false;
          modelTurn :=
            Some {| parts := Some [ {| inlineData := Some {| data := Some encoded |} |} ] |};
          interrupted := false |} |}.

(** An interruption signal. *)
Definition interruption_message : LiveServerMessage :=
  {| serverContent := Some
       {| outputTranscription := None; inputTranscription := None;
          turnComplete := false; modelTurn := None; interrupted := true |} |}.

End Wire.

(** ** Web Audio and media objects *)

(** An [AudioBuffer]: [duration] is its length in sample frames over its
    sample rate, as the Web Audio API defines it. *)
Record AudioBuffer := { frames : N; rate : positive }.

Definition duration (b : AudioBuffer) : Q := Z.of_N (frames b) # rate b.

Record AudioContext := { sampleRate : positive }.

(** The script processor node: [disconnect()] and [onaudioprocess = null]
    mutate the node, the field of the service keeps pointing to it. *)
Record ScriptProcessorNode := { connected : bool; onaudioprocess : bool }.

Record MediaStream := { tracks : list nat }.

(** ** Observable effects, in program order *)

Inductive Effect :=
  | OnStatusChange (status : ConnectionStatus)
  | OnTranscript (text : string) (isUser isFinal : bool)
  | OnVolumeChange (volume : Q)
  | ConsoleError (what : string)
  | NewAudioContext (rate : positive)
  | GetUserMedia
  | LiveConnect
  | SourceStart (source : nat) (buffer : AudioBuffer) (when : Q)
  | SourceStop (source : nat)
  | ProcessorDisconnect
  | TrackStop (track : nat)
  | ContextClose (ctx : AudioContext).

(** Texts of the transcript events of one speaker. *)
Fixpoint transcripts (isUser : bool) (tr : list Effect) : list (string * bool) :=
  match tr with
  | [] => []
  | OnTranscript t u f :: tr' =>
      if bool_decide (u = isUser) then (t, f) :: transcripts isUser tr'
      else transcripts isUser tr'
  | _ :: tr' => transcripts isUser tr'
  end.

(** Texts of the final transcript events of one speaker. *)
Definition finals (isUser : bool) (tr : list Effect) : list string :=
  fst <$> filter (λ e, snd e = true) (transcripts isUser tr).

(** The buffers started, with their start times. *)
Fixpoint starts (tr : list Effect) : list (nat * AudioBuffer * Q) :=
  match tr with
  | [] => []
  | SourceStart s b w :: tr' => (s, b, w) :: starts tr'
  | _ :: tr' => starts tr'
  end.

(** The status callbacks. *)
Fixpoint statuses (tr : list Effect) : list ConnectionStatus :=
  match tr with
  | [] => []
  | OnStatusChange s :: tr' => s :: statuses tr'
  | _ :: tr' => statuses tr'
  end.

(** The calls of the transcript callback. *)
Definition transcript_event (e : Effect) : Prop :=
  match e with
  | OnTranscript _ _ _ => True
  | _ => False
  end.

(** What [disconnect] calls: teardown of what the service holds. *)
Definition teardown_event (e : Effect) : Prop :=
  match e with
  | ProcessorDisconnect | TrackStop _ | SourceStop _ | ContextClose _ => True
  | _ => False
  end.

(** ** The service *)
Module Service.
Import Wire.

Record GeminiLiveService := {
  inputAudioContext : option AudioContext;
  outputAudioContext : option AudioContext;
  scriptProcessor : option ScriptProcessorNode;
  mediaStream : option MediaStream;
  nextStartTime : Q;
  sources : list nat;
  sessionPromise : option unit;
  currentInputTranscription : string;
  currentOutputTranscription : string;
  (** number of [AudioBufferSourceNode]s created so far: the identity of
      the next node *)
  created : nat
}.

(** The object as the field initialisers and the constructor leave it. *)
Definition new : GeminiLiveService := {|
  inputAudioContext := None;
  outputAudioContext := None;
  scriptProcessor := None;
  mediaStream := None;
  nextStartTime := 0%Q;
  sources := [];
  sessionPromise := None;
  currentInputTranscription := "";
  currentOutputTranscription := "";
  created := 0
|}.

(** *** Field updates *)

Definition set_inputAudioContext v (s : GeminiLiveService) :=
  {| inputAudioContext := v; outputAudioContext := outputAudioContext s;
     scriptProcessor := scriptProcessor s; mediaStream := mediaStream s;
     nextStartTime := nextStartTime s; sources := sources s;
     sessionPromise := sessionPromise s;
     currentInputTranscription := currentInputTranscription s;
     currentOutputTranscription := currentOutputTranscription s;
     created := created s |}.

Definition set_outputAudioContext v (s : GeminiLiveService) :=
  {| inputAudioContext := inputAudioContext s; outputAudioContext := v;
     scriptProcessor := scriptProcessor s; mediaStream := mediaStream s;
     nextStartTime := nextStartTime s; sources := sources s;
     sessionPromise := sessionPromise s;
     currentInputTranscription := currentInputTranscription s;
     currentOutputTranscription := currentOutputTranscription s;
     created := created s |}.

Definition set_scriptProcessor v (s : GeminiLiveService) :=
  {| inputAudioContext := inputAudioContext s; outputAudioContext := outputAudioContext s;
     scriptProcessor := v; mediaStream := mediaStream s;
     nextStartTime := nextStartTime s; sources := sources s;
     sessionPromise := sessionPromise s;
     currentInputTranscription := currentInputTranscription s;
     currentOutputTranscription := currentOutputTranscription s;
     created := created s |}.

Definition set_mediaStream v (s : GeminiLiveService) :=
  {| inputAudioContext := inputAudioContext s; outputAudioContext := outputAudioContext s;
     scriptProcessor := scriptProcessor s; mediaStream := v;
     nextStartTime := nextStartTime s; sources := sources s;
     sessionPromise := sessionPromise s;
     currentInputTranscription := currentInputTranscription s;
     currentOutputTranscription := currentOutputTranscription s;
     created := created s |}.

Definition set_nextStartTime v (s : GeminiLiveService) :=
  {| inputAudioContext := inputAudioContext s; outputAudioContext := outputAudioContext s;
     scriptProcessor := scriptProcessor s; mediaStream := mediaStream s;
     nextStartTime := v; sources := sources s;
     sessionPromise := sessionPromise s;
     currentInputTranscription := currentInputTranscription s;
     currentOutputTranscription := currentOutputTranscription s;
     created := created s |}.

Definition set_sources v (s : GeminiLiveService) :=
  {| inputAudioContext := inputAudioContext s; outputAudioContext := outputAudioContext s;
     scriptProcessor := scriptProcessor s; mediaStream := mediaStream s;
     nextStartTime := nextStartTime s; sources := v;
     sessionPromise := sessionPromise s;
     currentInputTranscription := currentInputTranscription s;
     currentOutputTranscription := currentOutputTranscription s;
     created := created s |}.

Definition set_sessionPromise v (s : GeminiLiveService) :=
  {| inputAudioContext := inputAudioContext s; outputAudioContext := outputAudioContext s;
     scriptProcessor := scriptProcessor s; mediaStream := mediaStream s;
     nextStartTime := nextStartTime s; sources := sources s;
     sessionPromise := v;
     currentInputTranscription := currentInputTranscription s;
     currentOutputTranscription := currentOutputTranscription s;
     created := created s |}.

Definition set_currentInputTranscription v (s : GeminiLiveService) :=
  {| inputAudioContext := inputAudioContext s; outputAudioContext := outputAudioContext s;
     scriptProcessor := scriptProcessor s; mediaStream := mediaStream s;
     nextStartTime := nextStartTime s; sources := sources s;
     sessionPromise := sessionPromise s;
     currentInputTranscription := v;
     currentOutputTranscription := currentOutputTranscription s;
     created := created s |}.

Definition set_currentOutputTranscription v (s : GeminiLiveService) :=
  {| inputAudioContext := inputAudioContext s; outputAudioContext := outputAudioContext s;
     scriptProcessor := scriptProcessor s; mediaStream := mediaStream s;
     nextStartTime := nextStartTime s; sources := sources s;
     sessionPromise := sessionPromise s;
     currentInputTranscription := currentInputTranscription s;
     currentOutputTranscription := v;
     created := created s |}.

Definition set_created v (s : GeminiLiveService) :=
  {| inputAudioContext := inputAudioContext s; outputAudioContext := outputAudioContext s;
     scriptProcessor := scriptProcessor s; mediaStream := mediaStream s;
     nextStartTime := nextStartTime s; sources := sources s;
     sessionPromise := sessionPromise s;
     currentInputTranscription := currentInputTranscription s;
     currentOutputTranscription := currentOutputTranscription s;
     created := v |}.

(** *** The monad of methods: the object's state and the trace so far *)

Definition M (A : Type) : Type :=
  GeminiLiveService → A * GeminiLiveService * list Effect.

#[global] Instance M_ret : MRet M := λ A (a : A) s, (a, s, []).

#[global] Instance M_bind : MBind M := λ A B (k : A → M B) (c : M A) s,
  let '(a, s1, t1) := c s in
  let '(b, s2, t2) := k a s1 in
  (b, s2, t1 ++ t2).

Definition this : M GeminiLiveService := λ s, (s, s, []).
Definition assign (f : GeminiLiveService → GeminiLiveService) : M unit :=
  λ s, (tt, f s, []).
Definition call (e : Effect) : M unit := λ s, (tt, s, [e]).
Definition skip : M unit := mret tt.

Definition state_of {A} (r : A * GeminiLiveService * list Effect) : GeminiLiveService :=
  snd (fst r).
Definition trace_of {A} (r : A * GeminiLiveService * list Effect) : list Effect :=
  snd r.

(** [for (const x of xs) body(x)] *)
Fixpoint for_of {A} (xs : list A) (body : A → M unit) : M unit :=
  match xs with
  | [] => skip
  | x :: xs' => body x ;; for_of xs' body
  end.

(** [set.add(x)] and [set.delete(x)] on an insertion-ordered [Set]. *)
Definition Set_add (x : nat) (xs : list nat) : list nat :=
  if decide (x ∈ xs) then xs else xs ++ [x].

Definition Set_delete (x : nat) (xs : list nat) : list nat :=
  filter (λ y, y ≠ x) xs.

Section Methods.

(** The constants [SAMPLE_RATE_INPUT] and [SAMPLE_RATE_OUTPUT] of
    [../constants]: any two sample rates. *)
Context (SAMPLE_RATE_INPUT SAMPLE_RATE_OUTPUT : positive).

(** [decodeAudioData(base64ToBytes(base64Audio), ctx, SAMPLE_RATE_OUTPUT, 1)]
    of [./audioUtils]: any function from the encoded chunk to the decoded
    buffer, [None] when one of the two calls throws or rejects. *)
Context (decodeAudioData : string → option AudioBuffer).

(** [stopAllAudio()] *)
Definition stopAllAudio : M unit :=
  self ← this;
  for_of (sources self) (λ source,
    call (SourceStop source);;
    assign (λ s, set_sources (Set_delete source (sources s)) s)).

(** The ['ended'] listener that [handleMessage] installs on the source
    it starts. *)
Definition onended (source : nat) : M unit :=
  assign (λ s, set_sources (Set_delete source (sources s)) s);;
  self ← this;
  if decide (length (sources self) = 0%nat)
  then call (OnVolumeChange 0%Q)
  else skip.

(** [disconnect()] *)
Definition disconnect : M unit :=
  (self ← this;
   match scriptProcessor self with
   | Some _ =>
       call ProcessorDisconnect;;
       assign (set_scriptProcessor
                 (Some {| connected := false; onaudioprocess := false |}))
   | None => skip
   end);;
  (self ← this;
   match mediaStream self with
   | Some stream => for_of (tracks stream) (λ track, call (TrackStop track))
   | None => skip
   end);;
  stopAllAudio;;
  (self ← this;
   match inputAudioContext self with
   | Some ctx => call (ContextClose ctx)
   | None => skip
   end);;
  (self ← this;
   match outputAudioContext self with
   | Some ctx => call (ContextClose ctx)
   | None => skip
   end);;
  assign (set_inputAudioContext None);;
  assign (set_outputAudioContext None);;
  assign (set_mediaStream None);;
  assign (set_sessionPromise None).

(** [setupAudioInput(onVolumeChange)]: the node is created, connected
    and given its [onaudioprocess] handler. *)
Definition setupAudioInput : M unit :=
  self ← this;
  match inputAudioContext self, mediaStream self, sessionPromise self with
  | Some _, Some _, Some _ =>
      assign (set_scriptProcessor
                (Some {| connected := true; onaudioprocess := true |}))
  | _, _, _ => skip
  end.

(** [connect(onStatusChange, onTranscript, onVolumeChange)].
    [getUserMedia] is the outcome of
    [await navigator.mediaDevices.getUserMedia({ audio: true })]:
    [None] when the promise rejects, which the [catch] handles. *)
Definition connect (getUserMedia : option MediaStream) : M unit :=
  call (OnStatusChange CONNECTING);;
  call (NewAudioContext SAMPLE_RATE_INPUT);;
  assign (set_inputAudioContext (Some {| sampleRate := SAMPLE_RATE_INPUT |}));;
  call (NewAudioContext SAMPLE_RATE_OUTPUT);;
  assign (set_outputAudioContext (Some {| sampleRate := SAMPLE_RATE_OUTPUT |}));;
  call GetUserMedia;;
  match getUserMedia with
  | Some stream =>
      assign (set_mediaStream (Some stream));;
      call LiveConnect;;
      assign (set_sessionPromise (Some ()))
  | None =>
      call (ConsoleError "Failed to connect:");;
      call (OnStatusChange ERROR);;
      disconnect
  end.

(** The callbacks [connect] hands to [ai.live.connect]. *)
Definition onopen : M unit :=
  call (OnStatusChange CONNECTED);;
  setupAudioInput.

Definition onerror : M unit :=
  call (ConsoleError "Gemini Live Error:");;
  call (OnStatusChange ERROR);;
  disconnect.

Definition onclose : M unit :=
  call (OnStatusChange DISCONNECTED).

(** *** [handleMessage], block by block *)

(** Lines 124-132: [// 1. Handle Transcription]. *)
Definition transcription (message : LiveServerMessage) : M unit :=
  match get_outputTranscription message with
  | Some t =>
      assign (λ s, set_currentOutputTranscription
                     (currentOutputTranscription s +:+ text t) s);;
      self ← this;
      call (OnTranscript (currentOutputTranscription self) false false)
  | None =>
      match get_inputTranscription message with
      | Some t =>
          assign (λ s, set_currentInputTranscription
                         (currentInputTranscription s +:+ text t) s);;
          self ← this;
          call (OnTranscript (currentInputTranscription self) true false)
      | None => skip
      end
  end.

(** Lines 134-143: the [turnComplete] flush. *)
Definition turnCompletion (message : LiveServerMessage) : M unit :=
  if get_turnComplete message then
    (self ← this;
     if truthy (currentInputTranscription self) then
       call (OnTranscript (currentInputTranscription self) true true);;
       assign (set_currentInputTranscription "")
     else skip);;
    (self ← this;
     if truthy (currentOutputTranscription self) then
       call (OnTranscript (currentOutputTranscription self) false true);;
       assign (set_currentOutputTranscription "")
     else skip)
  else skip.

(** Lines 183-187: [// 3. Handle Interruption]. *)
Definition interruption (message : LiveServerMessage) : M unit :=
  if get_interrupted message then
    stopAllAudio;;
    assign (set_currentOutputTranscription "");;
    assign (set_nextStartTime 0%Q)
  else skip.

(** Line 147: [base64Audio && this.outputAudioContext], on the value
    line 146 has read. *)
Definition audio_guard (base64Audio : option string) (self : GeminiLiveService)
  : option string :=
  match base64Audio, outputAudioContext self with
  | Some encoded, Some _ => if truthy encoded then Some encoded else None
  | _, _ => None
  end.

(** Lines 159-179: what follows [await decodeAudioData(...)] inside the
    [try], and the [catch]. [decoded] is what the [await] delivers.
    [createBufferSource] is a call on [this.outputAudioContext]: on
    [null] it throws into the same [catch]. *)
Definition schedule (decoded : option AudioBuffer) : M unit :=
  self ← this;
  match decoded, outputAudioContext self with
  | Some audioBuffer, Some _ =>
      let source := created self in
      assign (set_created (S source));;
      call (OnVolumeChange (1 # 2)%Q);;
      self ← this;
      call (SourceStart source audioBuffer (nextStartTime self));;
      assign (λ s, set_nextStartTime (nextStartTime s + duration audioBuffer)%Q s);;
      assign (λ s, set_sources (Set_add source (sources s)) s)
  | _, _ => call (ConsoleError "Audio decode error:")
  end.

(** How far a call of [handleMessage] gets before anything else can run:
    it is suspended at its [await] with a chunk handed to the decoder, it
    has run to its end, or line 146 has thrown and the promise of the
    call is rejected. *)
Inductive Outcome :=
  | Suspended (base64Audio : string)
  | Returned
  | Rejected.

(** [handleMessage] from its entry to its only [await]. [now] is the
    value of [this.outputAudioContext.currentTime] at line 148. When
    line 146 throws, nothing of lines 147-187 runs: the function has no
    [try] around that line. *)
Definition handleMessage_until_await (message : LiveServerMessage) (now : Q)
  : M Outcome :=
  transcription message;;
  turnCompletion message;;
  match get_base64Audio message with
  | TypeError => mret Rejected
  | Normal base64Audio =>
      self ← this;
      match audio_guard base64Audio self with
      | Some encoded =>
          assign (λ s, set_nextStartTime (Math_max (nextStartTime s) now) s);;
          mret (Suspended encoded)
      | None =>
          interruption message;;
          mret Returned
      end
  end.

(** [handleMessage] from the completion of the [await] to its end. *)
Definition handleMessage_after_await (message : LiveServerMessage)
    (decoded : option AudioBuffer) : M unit :=
  schedule decoded;;
  interruption message.

(** [handleMessage(message, outputNode, onTranscript, onVolumeChange)]
    as [onmessage] calls it, when nothing else runs between the [await]
    and its completion. [onmessage] neither awaits nor catches the
    promise of the call: a rejection reaches no code of the program. *)
Definition handleMessage (message : LiveServerMessage) (now : Q) : M unit :=
  outcome ← handleMessage_until_await message now;
  match outcome with
  | Suspended base64Audio =>
      handleMessage_after_await message (decodeAudioData base64Audio)
  | Returned | Rejected => skip
  end.

(** A sequence of inbound messages, each with the clock value at its
    arrival, handled one after the other. *)
Definition handleMessages (inbound : list (LiveServerMessage * Q)) : M unit :=
  for_of inbound (λ arrival, handleMessage arrival.1 arrival.2).

End Methods.

End Service.

(** ** The transcript handler and the connection toggle of [src/App.tsx] *)
Module App.
Import Service.

Inductive Role := user | model.

#[global] Instance Role_eq_dec : EqDecision Role.
Proof. solve_decision. Defined.

Record ChatMessage := {
  id : string;
  role : Role;
  text : string;
  timestamp : nat;
  isFinal : bool
}.

(** The updater [handleTranscript] passes to [setMessages]. [newId] and
    [date] stand for [Date.now().toString() + Math.random().toString()]
    and [new Date()]. *)
Definition handleTranscript (newId : string) (date : nat)
    (txt : string) (isUser final : bool) (prev : list ChatMessage)
  : list ChatMessage :=
  let r := if isUser then user else model in
  let newMsg :=
    {| id := newId; role := r; text := txt; timestamp := date; isFinal := final |} in
  match prev !! (length prev - 1)%nat with
  | Some lastMsg =>
      if bool_decide (role lastMsg = r) && negb (isFinal lastMsg) then
        <[(length prev - 1)%nat :=
            {| id := id lastMsg; role := role lastMsg; text := txt;
               timestamp := timestamp lastMsg; isFinal := final |}]> prev
      else prev ++ [newMsg]
  | None => prev ++ [newMsg]
  end.

(** One invocation of the transcript callback, with what the environment
    supplies for the new message's id and date. *)
Record Invocation := {
  inv_id : string;
  inv_date : nat;
  inv_text : string;
  inv_isUser : bool;
  inv_isFinal : bool
}.

Definition invoke (i : Invocation) (prev : list ChatMessage) : list ChatMessage :=
  handleTranscript (inv_id i) (inv_date i) (inv_text i) (inv_isUser i) (inv_isFinal i) prev.

(** The message list after a sequence of invocations, oldest first. *)
Definition replay (invs : list Invocation) (prev : list ChatMessage) : list ChatMessage :=
  foldl (λ msgs i, invoke i msgs) prev invs.

(** Non-final messages of one speaker in the visible list. *)
Definition pending (r : Role) (msgs : list ChatMessage) : list ChatMessage :=
  filter (λ m, role m = r ∧ isFinal m = false) msgs.

(** Among two adjacent messages of one speaker only the later one can be
    non-final. *)
Definition settled (msgs : list ChatMessage) : Prop :=
  ∀ i m1 m2, msgs !! i = Some m1 → msgs !! S i = Some m2 →
             role m1 = role m2 → isFinal m1 = true.

(** The component state that [toggleConnection] reads and writes. *)
Record App := {
  status : ConnectionStatus;
  messages : list ChatMessage;
  volume : Q;
  error : option string;
  liveService : GeminiLiveService
}.

Definition initial : App := {|
  status := DISCONNECTED;
  messages := [];
  volume := 0%Q;
  error := None;
  liveService := Service.new
|}.

(** [(newStatus) => setStatus(newStatus)], for every status callback of a
    trace. *)
Definition setStatuses (tr : list Effect) (st : ConnectionStatus) : ConnectionStatus :=
  foldl (λ _ s, s) st (statuses tr).

Section Toggle.
Context (SAMPLE_RATE_INPUT SAMPLE_RATE_OUTPUT : positive).

(** [toggleConnection()], with the trace of the service call it makes. *)
Definition toggleConnection (getUserMedia : option MediaStream) (app : App)
  : App * list Effect :=
  if bool_decide (status app = CONNECTED) || bool_decide (status app = CONNECTING) then
    let r := disconnect (liveService app) in
    ({| status := DISCONNECTED; messages := messages app; volume := 0%Q;
        error := error app; liveService := state_of r |}, trace_of r)
  else
    let r := connect SAMPLE_RATE_INPUT SAMPLE_RATE_OUTPUT getUserMedia (liveService app) in
    ({| status := setStatuses (trace_of r) (status app); messages := messages app;
        volume := volume app; error := None; liveService := state_of r |},
     trace_of r).

(** The [onopen] callback of the session, as the component sees it. *)
Definition opened (app : App) : App * list Effect :=
  let r := onopen (liveService app) in
  ({| status := setStatuses (trace_of r) (status app); messages := messages app;
      volume := volume app; error := error app; liveService := state_of r |},
   trace_of r).
End Toggle.

End App.

(** ** The dispatcher in the words of the specification

    The specification describes [handleMessage] as a dispatcher that
    applies every field present in a message to its component. [present],
    the components and [dispatch] follow those words; [guarded],
    [interrupts] and [applied] say which fields the code acts on. They are
    compared with [Service.handleMessage] in the theorems. *)
Module Dispatcher.
Import Wire Service.

Inductive Field :=
  | TranscriptDelta (isUser : bool) (txt : string)
  | TurnComplete
  | AudioChunk (encoded : string)
  | Interruption.

(** The accumulation buffer of a speaker. *)
Definition transcription_of (isUser : bool) (self : GeminiLiveService) : string :=
  if isUser then currentInputTranscription self else currentOutputTranscription self.

Definition set_transcription_of (isUser : bool) (v : string)
  : GeminiLiveService → GeminiLiveService :=
  if isUser then set_currentInputTranscription v else set_currentOutputTranscription v.


(** The chunk [handleMessage] hands to the decoder: the one line 146
    reads, from the first part only, when the read does not throw and the
    chunk passes the guard of line 147. *)
Definition guarded (message : LiveServerMessage) (self : GeminiLiveService)
  : option string :=
  match get_base64Audio message with
  | Normal base64Audio => audio_guard base64Audio self
  | TypeError => None
  end.

(** Whether [handleMessage] gets to the interruption block (line 146 has
    not thrown) and finds the signal there. *)
Definition interrupts (message : LiveServerMessage) : bool :=
  match get_base64Audio message with
  | Normal _ => get_interrupted message
  | TypeError => false
  end.

(** The fields [handleMessage] acts on: a User delta only when the
    message has no Model delta; a chunk only when it is in the first part
    of the model turn, is a non-empty string and the output context
    exists; the interruption only when the model turn, if there is one,
    has its parts. *)
Definition applied (message : LiveServerMessage) (self : GeminiLiveService)
  : list Field :=
  match get_outputTranscription message with
  | Some t => [TranscriptDelta false (text t)]
  | None => option_list (TranscriptDelta true ∘ text <$> get_inputTranscription message)
  end
  ++ (if get_turnComplete message then [TurnComplete] else [])
  ++ option_list (AudioChunk <$> guarded message self)
  ++ (if interrupts message then [Interruption] else []).

Section Components.
Context (decodeAudioData : string → option AudioBuffer).

(** Transcript Aggregator, on a delta: append the text to the open turn
    of the speaker and emit an update with [isFinal = false]. *)
Definition on_delta (isUser : bool) (txt : string) : M unit :=
  self ← this;
  let accumulated := transcription_of isUser self +:+ txt in
  assign (set_transcription_of isUser accumulated);;
  call (OnTranscript accumulated isUser false).

(** Transcript Aggregator, on turn-complete: for each speaker with an
    open, non-empty turn, emit a final update and close the turn. *)
Definition close_turn (isUser : bool) : M unit :=
  self ← this;
  if truthy (transcription_of isUser self) then
    call (OnTranscript (transcription_of isUser self) isUser true);;
    assign (set_transcription_of isUser "")
  else skip.

Definition on_turn_complete : M unit :=
  close_turn true;; close_turn false.

(** Playback Scheduler, on a chunk: start at
    [max(nextStartTime, currentPlaybackTime)], advance by the duration
    of the buffer, track the buffer; a chunk that fails to decode is
    dropped with a diagnostic. *)
Definition on_audio_chunk (now : Q) (encoded : string) : M unit :=
  assign (λ s, set_nextStartTime (Math_max (nextStartTime s) now) s);;
  schedule (decodeAudioData encoded).

(** Playback Scheduler, cancellation path, and the stale Model
    transcript. *)
Definition on_interruption : M unit :=
  stopAllAudio;;
  assign (set_currentOutputTranscription "");;
  assign (set_nextStartTime 0%Q).

Definition apply (now : Q) (f : Field) : M unit :=
  match f with
  | TranscriptDelta isUser txt => on_delta isUser txt
  | TurnComplete => on_turn_complete
  | AudioChunk encoded => on_audio_chunk now encoded
  | Interruption => on_interruption
  end.

Definition dispatch (fields : list Field) (now : Q) : M unit :=
  for_of fields (apply now).

End Components.

(** *** What [handleMessage] does to the transcripts and to the timeline,
    in closed form *)

(** The delta [handleMessage] appends to the buffer of a speaker. *)
Definition appended (isUser : bool) (message : LiveServerMessage) : option string :=
  if isUser then
    match get_outputTranscription message with
    | Some _ => None
    | None => text <$> get_inputTranscription message
    end
  else text <$> get_outputTranscription message.

(** Every delta of a speaker that a message carries. *)
Definition delta_of (isUser : bool) (message : LiveServerMessage) : option string :=
  text <$> (if isUser then get_inputTranscription message
            else get_outputTranscription message).

(** The texts a speaker's turn runs through while [deltas] arrive on top
    of [opened]. *)
Fixpoint accumulations (opened : string) (deltas : list string) : list string :=
  match deltas with
  | [] => []
  | d :: deltas' => (opened +:+ d) :: accumulations (opened +:+ d) deltas'
  end.

(** Concatenation in arrival order. *)
Definition joined (deltas : list string) : string :=
  foldr String.append "" deltas.

(** The buffer of a speaker once the delta of the message is appended. *)
Definition grown (isUser : bool) (message : LiveServerMessage) (s : GeminiLiveService) : string :=
  match appended isUser message with
  | Some d => transcription_of isUser s +:+ d
  | None => transcription_of isUser s
  end.

(** The buffer of a speaker once the message is handled, interruption
    apart. *)
Definition left_open (isUser : bool) (message : LiveServerMessage) (s : GeminiLiveService) : string :=
  if get_turnComplete message then "" else grown isUser message s.

(** The events of the transcription block and of the turn-complete
    flush. *)
Definition delta_events (message : LiveServerMessage) (s : GeminiLiveService) : list Effect :=
  match appended false message, appended true message with
  | Some _, _ => [OnTranscript (grown false message s) false false]
  | None, Some _ => [OnTranscript (grown true message s) true false]
  | None, None => []
  end.

Definition flush_events (message : LiveServerMessage) (s : GeminiLiveService) : list Effect :=
  if get_turnComplete message then
    (if truthy (grown true message s)
     then [OnTranscript (grown true message s) true true] else [])
    ++ (if truthy (grown false message s)
        then [OnTranscript (grown false message s) false true] else [])
  else [].

Section Blocks.
Context (decodeAudioData : string → option AudioBuffer).

(** The state and the calls of the chunk block of [handleMessage]. *)
Definition chunk_block (message : LiveServerMessage) (now : Q) (s : GeminiLiveService)
  : GeminiLiveService * list Effect :=
  match guarded message s with
  | Some chunk =>
      match decodeAudioData chunk with
      | Some audioBuffer =>
          (set_sources (Set_add (created s) (sources s))
             (set_nextStartTime (Math_max (nextStartTime s) now + duration audioBuffer)%Q
                (set_created (S (created s)) s)),
           [ OnVolumeChange (1 # 2)%Q;
             SourceStart (created s) audioBuffer (Math_max (nextStartTime s) now) ])
      | None =>
          (set_nextStartTime (Math_max (nextStartTime s) now) s,
           [ ConsoleError "Audio decode error:" ])
      end
  | None => (s, [])
  end.

End Blocks.

(** *** Turns *)

(** Deltas of one speaker, then one turn-complete. *)
Definition one_turn (isUser : bool) (deltas : list (string * Q)) (now : Q)
  : list (LiveServerMessage * Q) :=
  ((λ d, (delta_message isUser d.1, d.2)) <$> deltas)
    ++ [(turn_complete_message, now)].

(** A message that leaves the turn of the speaker open. *)
Definition keeps_open (isUser : bool) (message : LiveServerMessage) : Prop :=
  get_turnComplete message = false
  ∧ (isUser = false → get_interrupted message = false).

(** [t2] has [t1] as a prefix. *)
Definition extends (t1 t2 : string) : Prop := ∃ d, t2 = t1 +:+ d.

(** Each text has the one before it as a prefix, the first one [opened]. *)
Fixpoint successive (opened : string) (texts : list string) : Prop :=
  match texts with
  | [] => True
  | t :: texts' => extends opened t ∧ successive t texts'
  end.

End Dispatcher.

(** ** Sample inputs *)
Module Sample.
Import Wire Service.

(** A message with a delta of each speaker. *)
Definition both_deltas : LiveServerMessage :=
  {| serverContent := Some
       {| outputTranscription := Some {| text := "yo" |};
          inputTranscription := Some {| text := "hi" |};
          turnComplete := false; modelTurn := None; interrupted := false |} |}.




(** A decoder: two chunks of one second and of half a second at 24 kHz,
    everything else fails to decode. *)
Definition decoder (encoded : string) : option AudioBuffer :=
  if bool_decide (encoded = "AAAA") then Some {| frames := 24000; rate := 24000 |}
  else if bool_decide (encoded = "AA") then Some {| frames := 12000; rate := 24000 |}
  else None.

(** A service with an open output context that has scheduled nothing. *)
Definition listening : GeminiLiveService :=
  {| inputAudioContext := Some {| sampleRate := 16000 |};
     outputAudioContext := Some {| sampleRate := 24000 |};
     scriptProcessor := Some {| connected := true; onaudioprocess := true |};
     mediaStream := Some {| tracks := [0%nat] |};
     nextStartTime := 0%Q;
     sources := [];
     sessionPromise := Some ();
     currentInputTranscription := "";
     currentOutputTranscription := "";
     created := 0 |}.

(** The same service in the middle of a Model turn: a second and a half
    of audio scheduled, a partial transcript accumulated. *)
Definition speaking : GeminiLiveService :=
  {| inputAudioContext := Some {| sampleRate := 16000 |};
     outputAudioContext := Some {| sampleRate := 24000 |};
     scriptProcessor := Some {| connected := true; onaudioprocess := true |};
     mediaStream := Some {| tracks := [0%nat] |};
     nextStartTime := (3 # 2)%Q;
     sources := [0%nat; 1%nat];
     sessionPromise := Some ();
     currentInputTranscription := "";
     currentOutputTranscription := "Hello the";
     created := 2 |}.

Definition microphone : MediaStream := {| tracks := [0%nat] |}.

(** The component once [toggleConnection] has connected and the session
    has reported open. *)
Definition connected : App.App :=
  (App.opened (App.toggleConnection 16000 24000 (Some microphone) App.initial).1).1.

(** Transcript callbacks of two speakers that interleave. *)
Definition interleaved : list App.Invocation :=
  [ {| App.inv_id := "1"; App.inv_date := 1; App.inv_text := "a";
       App.inv_isUser := true; App.inv_isFinal := false |};
    {| App.inv_id := "2"; App.inv_date := 2; App.inv_text := "b";
       App.inv_isUser := false; App.inv_isFinal := false |};
    {| App.inv_id := "3"; App.inv_date := 3; App.inv_text := "ac";
       App.inv_isUser := true; App.inv_isFinal := false |} ].

End Sample.

(** ** The timeline as a sequence of slices *)
Module Timeline.

(** Every buffer starts no earlier than the end of the one before it, the
    first one no earlier than [from]. *)
Fixpoint chained (from : Q) (started : list (nat * AudioBuffer * Q)) : Prop :=
  match started with
  | [] => True
  | (_, b, w) :: rest => (from <= w)%Q ∧ chained (w + duration b)%Q rest
  end.

(** The end of the last slice, [from] when there is none. *)
Fixpoint timeline_end (from : Q) (started : list (nat * AudioBuffer * Q)) : Q :=
  match started with
  | [] => from
  | (_, b, w) :: rest => timeline_end (w + duration b)%Q rest
  end.

End Timeline.

(** ** The transcript callback wired to the component

    [toggleConnection] passes [handleTranscript] to [connect] as
    [onTranscript], and [setMessages] applies the updaters in the order of
    the calls. *)
Module Wiring.
Import Service App.

(** The message list once the transcript callbacks of a trace have been
    applied. [stamp k] is what [Date.now().toString() +
    Math.random().toString()] and [new Date()] give at the [k]-th call. *)
Fixpoint deliver (stamp : nat → string * nat) (k : nat) (tr : list Effect)
    (msgs : list ChatMessage) : list ChatMessage :=
  match tr with
  | [] => msgs
  | OnTranscript txt isUser final :: tr' =>
      deliver stamp (S k) tr'
        (handleTranscript (stamp k).1 (stamp k).2 txt isUser final msgs)
  | _ :: tr' => deliver stamp k tr' msgs
  end.

(** What is shown of a message: speaker, text, final or not. *)
Definition shown (m : ChatMessage) : Role * string * bool :=
  (role m, text m, isFinal m).

(** The role of a speaker flag. *)
Definition role_of (isUser : bool) : Role := if isUser then user else model.

(** A message with another text and final flag. *)
Definition retext (m : ChatMessage) (txt : string) (final : bool) : ChatMessage :=
  {| id := id m; role := role m; text := txt; timestamp := timestamp m;
     isFinal := final |}.

End Wiring.

(** ** The bars of [src/components/Visualizer.tsx]

    The numbers of [animate] are exact rationals; [random] stands for the
    value of [Math.random()] drawn for the bar. *)
Module Visualizer.

Definition barCount : Z := 5.
Definition spacing : Q := 12%Q.
Definition barWidth : Q := 8%Q.

(** [Math.floor(barCount / 2)] *)
Definition middle : Z := (barCount / 2)%Z.

(** [targetHeight = Math.max(5, volume * maxHeight)] with
    [maxHeight = canvas.height * 0.8]. *)
Definition targetHeight (canvasHeight volume : Q) : Q :=
  Math_max 5 (volume * (canvasHeight * (8 # 10)))%Q.

(** [Math.max(5, targetHeight - (offset * (targetHeight * 0.3)))] with
    [offset = Math.abs(i - Math.floor(barCount / 2))]. *)
Definition currentHeight (canvasHeight volume : Q) (i : Z) : Q :=
  let offset := inject_Z (Z.abs (i - middle)) in
  let target := targetHeight canvasHeight volume in
  Math_max 5 (target - offset * (target * (3 # 10)))%Q.

(** [currentHeight + jitter], [jitter = isPlaying ? Math.random() * 5 : 0]. *)
Definition finalHeight (canvasHeight volume : Q) (isPlaying : bool) (random : Q)
    (i : Z) : Q :=
  (currentHeight canvasHeight volume i + (if isPlaying then random * 5 else 0))%Q.

Record Rect := { left : Q; top : Q; width : Q; height : Q }.

(** The rectangle [animate] draws for bar [i]. *)
Definition bar (canvasWidth canvasHeight volume : Q) (isPlaying : bool)
    (random : Q) (i : Z) : Rect :=
  let centerX := (canvasWidth / 2)%Q in
  let h := finalHeight canvasHeight volume isPlaying random i in
  let x := (centerX + inject_Z (i - middle) * (barWidth + spacing))%Q in
  let y := ((canvasHeight - h) / 2)%Q in
  {| left := (x - barWidth / 2)%Q; top := y; width := barWidth; height := h |}.

End Visualizer.

(** * The message list of the component *)

Section ChatMessages.
Import App.

Lemma handleTranscript_nil newId date txt isUser final :
  handleTranscript newId date txt isUser final [] =
    [ {| id := newId; role := if isUser then user else model; text := txt;
         timestamp := date; isFinal := final |} ].
Proof. reflexivity. Qed.

Lemma handleTranscript_snoc newId date txt isUser final older lastMsg :
  handleTranscript newId date txt isUser final (older ++ [lastMsg]) =
    if bool_decide (role lastMsg = if isUser then user else model)
       && negb (isFinal lastMsg)
    then older ++ [ {| id := id lastMsg; role := role lastMsg; text := txt;
                       timestamp := timestamp lastMsg; isFinal := final |} ]
    else older ++ [ lastMsg;
                    {| id := newId; role := if isUser then user else model;
                       text := txt; timestamp := date; isFinal := final |} ].
Proof.
  unfold handleTranscript.
  rewrite length_app. simpl length.
  replace (length older + 1 - 1)%nat with (length older) by lia.
  rewrite list_lookup_middle by reflexivity.
  destruct (bool_decide _ && negb _).
  - rewrite insert_app_r_alt by lia.
    rewrite Nat.sub_diag. reflexivity.
  - rewrite <- app_assoc. reflexivity.
Qed.

Lemma settled_nil : settled [].
Proof. intros i m1 m2 H. discriminate. Qed.

Lemma settled_invoke inv msgs : settled msgs → settled (invoke inv msgs).
Proof.
  intros Hs. unfold invoke.
  destruct msgs as [|x older _] using rev_ind.
  - rewrite handleTranscript_nil. intros [|i] m1 m2 H1 H2; discriminate.
  - rewrite handleTranscript_snoc.
    destruct (bool_decide _ && negb _) eqn:Hguard.
    + apply andb_true_iff in Hguard as [Hrole Hfin].
      intros i m1 m2 H1 H2 Hr.
      destruct (decide (S i < length older)%nat) as [Hlt|Hge].
      * rewrite lookup_app_l in H1 by lia. rewrite lookup_app_l in H2 by lia.
        apply (Hs i m1 m2); [ rewrite lookup_app_l by lia; done
                            | rewrite lookup_app_l by lia; done | done ].
      * destruct (decide (S i = length older)) as [Heq|Hne].
        -- rewrite lookup_app_l in H1 by lia.
           rewrite list_lookup_middle in H2 by done.
           injection H2 as <-. simpl in Hr.
           apply (Hs i m1 x); [ rewrite lookup_app_l by lia; done
                              | rewrite list_lookup_middle by done; done | done ].
        -- apply lookup_lt_Some in H2. rewrite length_app in H2. simpl in H2. lia.
    + intros i m1 m2 H1 H2 Hr.
      destruct (decide (S i < S (length older))%nat) as [Hlt|Hge].
      * apply (Hs i m1 m2); [ | | done ].
        -- rewrite lookup_app_l by lia.
           rewrite lookup_app_l in H1 by lia. done.
        -- change (older ++ [x; ?n]) with (older ++ [x] ++ [n]) in H2.
           rewrite app_assoc in H2.
           rewrite lookup_app_l in H2 by (rewrite length_app; simpl; lia). done.
      * destruct (decide (i = length older)) as [Heq|Hne].
        -- rewrite list_lookup_middle in H1 by done. injection H1 as <-.
           change (older ++ [x; ?n]) with (older ++ [x] ++ [n]) in H2.
           rewrite app_assoc in H2.
           rewrite list_lookup_middle in H2 by (rewrite length_app; simpl; lia).
           injection H2 as <-. simpl in Hr.
           apply andb_false_iff in Hguard as [Hrole|Hfin].
           ++ apply bool_decide_eq_false in Hrole. contradiction.
           ++ apply negb_false_iff in Hfin. done.
        -- apply lookup_lt_Some in H2. rewrite length_app in H2. simpl in H2. lia.
Qed.

Lemma settled_replay invs msgs : settled msgs → settled (replay invs msgs).
Proof.
  revert msgs. induction invs as [|inv invs IH]; intros msgs Hs; [done|].
  simpl. apply IH, settled_invoke, Hs.
Qed.

(** One invocation leaves every final message where and as it is. *)
Lemma final_kept_invoke inv msgs i m :
  msgs !! i = Some m → isFinal m = true → invoke inv msgs !! i = Some m.
Proof.
  intros Hi Hfin. unfold invoke.
  destruct msgs as [|x older _] using rev_ind; [discriminate|].
  rewrite handleTranscript_snoc.
  destruct (bool_decide _ && negb _) eqn:Hguard.
  - apply andb_true_iff in Hguard as [_ Hx]. apply negb_true_iff in Hx.
    destruct (decide (i < length older)%nat) as [Hlt|Hge].
    + rewrite lookup_app_l by lia. rewrite lookup_app_l in Hi by lia. done.
    + pose proof (lookup_lt_Some _ _ _ Hi) as Hlen.
      rewrite length_app in Hlen. simpl in Hlen.
      rewrite list_lookup_middle in Hi by lia. injection Hi as <-. congruence.
  - change (older ++ [x; ?n]) with (older ++ [x] ++ [n]).
    rewrite app_assoc. apply lookup_app_l_Some, Hi.
Qed.

Lemma final_kept_replay invs msgs i m :
  msgs !! i = Some m → isFinal m = true → replay invs msgs !! i = Some m.
Proof.
  revert msgs. induction invs as [|inv invs IH]; intros msgs Hi Hfin; [done|].
  simpl. apply IH; [apply final_kept_invoke|]; done.
Qed.

End ChatMessages.

(** C8 (as amended): after every sequence of transcript callbacks, a
    non-final message is the last one of the list or is directly followed by
    a message of the other speaker, and a message that is final stays at its
    place with its id, speaker, text and flag, whatever callbacks follow. *)
Theorem visible_messages_settled (invs : list App.Invocation) :
  let msgs := App.replay invs [] in
  (∀ i m1 m2, msgs !! i = Some m1 → msgs !! S i = Some m2 →
     App.role m1 = App.role m2 → App.isFinal m1 = true)
  ∧ (∀ later i m, msgs !! i = Some m → App.isFinal m = true →
       App.replay later msgs !! i = Some m).
Proof.
  split.
  - apply settled_replay, settled_nil.
  - intros later i m. apply final_kept_replay.
Qed.

(** C8 as stated fails: when the callbacks of the two speakers interleave,
    two non-final messages of the user are in the list. *)
Lemma two_pending_user_messages :
  App.text <$> App.pending App.user (App.replay Sample.interleaved []) = ["a"; "ac"]
  ∧ ¬ (∀ invs r, (length (App.pending r (App.replay invs [])) ≤ 1)%nat).
Proof.
  split; [reflexivity|].
  intros H. specialize (H Sample.interleaved App.user).
  vm_compute in H. lia.
Qed.

(** * The monad of methods *)

Section Running.
Import Service.

Lemma state_of_bind {A B} (c : M A) (k : A → M B) s :
  state_of ((c ≫= k) s) = state_of (k (c s).1.1 (state_of (c s))).
Proof.
  unfold mbind, M_bind, state_of.
  destruct (c s) as [[a s1] t1]. simpl.
  destruct (k a s1) as [[b s2] t2]. reflexivity.
Qed.

Lemma trace_of_bind {A B} (c : M A) (k : A → M B) s :
  trace_of ((c ≫= k) s) =
    trace_of (c s) ++ trace_of (k (c s).1.1 (state_of (c s))).
Proof.
  unfold mbind, M_bind, state_of, trace_of.
  destruct (c s) as [[a s1] t1]. simpl.
  destruct (k a s1) as [[b s2] t2]. reflexivity.
Qed.

Lemma for_of_cons {A} (x : A) xs (body : A → M unit) s :
  state_of (for_of (x :: xs) body s) = state_of (for_of xs body (state_of (body x s)))
  ∧ trace_of (for_of (x :: xs) body s) =
      trace_of (body x s) ++ trace_of (for_of xs body (state_of (body x s))).
Proof.
  simpl for_of. rewrite state_of_bind, trace_of_bind. done.
Qed.

Lemma for_of_app {A} (xs ys : list A) (body : A → M unit) s :
  state_of (for_of (xs ++ ys) body s) = state_of (for_of ys body (state_of (for_of xs body s)))
  ∧ trace_of (for_of (xs ++ ys) body s) =
      trace_of (for_of xs body s) ++ trace_of (for_of ys body (state_of (for_of xs body s))).
Proof.
  revert s. induction xs as [|x xs IH]; intros s; [done|].
  rewrite <- app_comm_cons.
  destruct (for_of_cons x (xs ++ ys) body s) as [-> ->].
  destruct (for_of_cons x xs body s) as [-> ->].
  destruct (IH (state_of (body x s))) as [-> ->].
  rewrite app_assoc. done.
Qed.

Lemma for_of_app_run {A} (xs ys : list A) (body : A → M unit) s :
  for_of (xs ++ ys) body s =
    let '(_, s1, t1) := for_of xs body s in
    let '(_, s2, t2) := for_of ys body s1 in
    (tt, s2, t1 ++ t2).
Proof.
  destruct (for_of_app xs ys body s) as [Hst Htr].
  destruct (for_of (xs ++ ys) body s) as [[[] s'] t'].
  destruct (for_of xs body s) as [[[] s1] t1].
  unfold state_of, trace_of in *. simpl in *.
  destruct (for_of ys body s1) as [[[] s2] t2].
  simpl in *. subst. reflexivity.
Qed.

End Running.

Ltac run :=
  repeat (unfold Service.skip, mbind, Service.M_bind, mret, Service.M_ret,
            Service.this, Service.assign, Service.call,
            Service.state_of, Service.trace_of;
          cbv beta iota zeta).

(** * Playback and dispatch *)

Section Playback.
Import Wire Service Dispatcher.
Context (decodeAudioData : string → option AudioBuffer).

Lemma unit_run_ext (r1 r2 : unit * GeminiLiveService * list Effect) :
  state_of r1 = state_of r2 → trace_of r1 = trace_of r2 → r1 = r2.
Proof.
  destruct r1 as [[[] s1] t1], r2 as [[[] s2] t2].
  unfold state_of, trace_of. simpl. intros -> ->. reflexivity.
Qed.

(** *** [stopAllAudio] *)

Lemma delete_all (xs ys : list nat) :
  (∀ y, y ∈ ys → y ∈ xs) →
  foldl (λ acc x, Set_delete x acc) ys xs = [].
Proof.
  revert ys. induction xs as [|x xs IH]; intros ys Hsub; simpl.
  - destruct ys as [|y ys]; [done|].
    specialize (Hsub y (list_elem_of_here _ _)). inversion Hsub.
  - apply IH. intros y Hy. unfold Set_delete in Hy.
    apply list_elem_of_filter in Hy as [Hne Hy].
    specialize (Hsub y Hy). apply elem_of_cons in Hsub as [?|?]; done.
Qed.

Lemma stop_loop (xs : list nat) (s : GeminiLiveService) :
  for_of xs (λ source,
    call (SourceStop source);;
    assign (λ s, set_sources (Set_delete source (sources s)) s)) s =
  (tt, set_sources (foldl (λ acc x, Set_delete x acc) (sources s) xs) s,
   SourceStop <$> xs).
Proof.
  revert s. induction xs as [|x xs IH]; intros s.
  - destruct s. reflexivity.
  - simpl for_of. run. rewrite IH. reflexivity.
Qed.

Lemma stopAllAudio_run (s : GeminiLiveService) :
  stopAllAudio s = (tt, set_sources [] s, SourceStop <$> sources s).
Proof.
  unfold stopAllAudio. run. rewrite stop_loop, delete_all by done.
  reflexivity.
Qed.

Lemma on_interruption_run (s : GeminiLiveService) :
  on_interruption s =
    (tt, set_nextStartTime 0%Q (set_currentOutputTranscription "" (set_sources [] s)),
     SourceStop <$> sources s).
Proof.
  unfold on_interruption. run. rewrite stopAllAudio_run.
  rewrite !app_nil_r. reflexivity.
Qed.

Lemma interruption_run message (s : GeminiLiveService) :
  interruption message s =
    if get_interrupted message then on_interruption s else (tt, s, []).
Proof. unfold interruption, on_interruption. destruct (get_interrupted message); done. Qed.

Lemma interruption_fields (signal : bool) now (s : GeminiLiveService) :
  for_of (if signal then [Interruption] else []) (apply decodeAudioData now) s =
    if signal then on_interruption s else (tt, s, []).
Proof.
  destruct signal; [|done].
  simpl. run. destruct (on_interruption s) as [[[] s'] t'].
  rewrite app_nil_r. reflexivity.
Qed.

(** *** [handleMessage] is the dispatch of the fields it acts on *)

Lemma handleMessage_dispatch message now (s : GeminiLiveService) :
  handleMessage decodeAudioData message now s =
    dispatch decodeAudioData (applied message s) now s.
Proof.
  unfold handleMessage, handleMessage_until_await, handleMessage_after_await,
    dispatch, applied, guarded, interrupts, audio_guard, get_outputTranscription,
    get_inputTranscription, get_turnComplete, get_interrupted.
  generalize (get_base64Audio message). intros audio.
  destruct s as [ic oc sp ms nst src sess cin cout cr].
  destruct message as [[[[[out]|] [[inp]|] [] turn []]|]];
    destruct audio as [[chunk|]|], oc as [ctx|];
    unfold transcription, turnCompletion, interruption, get_outputTranscription,
      get_inputTranscription, get_turnComplete, get_interrupted,
      apply, on_delta, on_turn_complete, close_turn, on_audio_chunk, on_interruption;
    repeat first
      [ progress run | progress cbn | rewrite stopAllAudio_run
      | match goal with
        | |- context [truthy ?x] => destruct (truthy x) eqn:?
        end ].
  all: repeat first
      [ progress run | progress cbn | rewrite stopAllAudio_run
      | rewrite app_nil_r
      | match goal with
        | |- context [schedule ?d ?x] => destruct (schedule d x) as [[[] ?] ?]
        end ].
  all: reflexivity.
Qed.

(** *** The fields one by one *)

Lemma transcript_events_silent tr :
  Forall transcript_event tr → starts tr = [] ∧ statuses tr = [].
Proof.
  induction 1 as [|e tr He _ [IH1 IH2]]; [done|].
  destruct e; simpl in He; try contradiction. done.
Qed.

Lemma starts_app tr1 tr2 : starts (tr1 ++ tr2) = starts tr1 ++ starts tr2.
Proof.
  induction tr1 as [|e tr1 IH]; [done|].
  destruct e; simpl; rewrite ?IH; done.
Qed.

Lemma statuses_app tr1 tr2 : statuses (tr1 ++ tr2) = statuses tr1 ++ statuses tr2.
Proof.
  induction tr1 as [|e tr1 IH]; [done|].
  destruct e; simpl; rewrite ?IH; done.
Qed.

Lemma transcripts_app isUser tr1 tr2 :
  transcripts isUser (tr1 ++ tr2) = transcripts isUser tr1 ++ transcripts isUser tr2.
Proof.
  induction tr1 as [|e tr1 IH]; [done|].
  destruct e; simpl; rewrite ?IH; try done.
  case_bool_decide; done.
Qed.

Lemma finals_app isUser tr1 tr2 :
  finals isUser (tr1 ++ tr2) = finals isUser tr1 ++ finals isUser tr2.
Proof.
  unfold finals. rewrite transcripts_app, filter_app, fmap_app. done.
Qed.

Lemma truthy_false (x : string) : truthy x = false → x = "".
Proof. destruct x; [done|discriminate]. Qed.

(** The transcript fields touch the two accumulation buffers only and
    call the transcript callback only. *)
Lemma transcript_part_run message now (s : GeminiLiveService) :
  dispatch decodeAudioData
    (match get_outputTranscription message with
     | Some t => [TranscriptDelta false (text t)]
     | None => option_list (TranscriptDelta true ∘ text <$> get_inputTranscription message)
     end ++ (if get_turnComplete message then [TurnComplete] else [])) now s =
  (tt,
   set_currentInputTranscription (left_open true message s)
     (set_currentOutputTranscription (left_open false message s) s),
   delta_events message s ++ flush_events message s).
Proof.
  destruct s as [ic oc sp ms nst src sess cin cout cr].
  unfold dispatch, delta_events, flush_events, left_open, grown, appended.
  destruct (get_outputTranscription message) as [[out]|];
    [|destruct (get_inputTranscription message) as [[inp]|]];
    destruct (get_turnComplete message);
    unfold apply, on_delta, on_turn_complete, close_turn;
    repeat first
      [ progress run | progress cbn
      | match goal with
        | |- context [truthy ?x] =>
            let H := fresh in
            destruct (truthy x) eqn:H;
            [|apply truthy_false in H; rewrite ?H]
        end ].
  all: reflexivity.
Qed.

Lemma transcript_events_delta message s : Forall transcript_event (delta_events message s).
Proof.
  unfold delta_events.
  destruct (appended false message), (appended true message); repeat constructor.
Qed.

Lemma transcript_events_flush message s : Forall transcript_event (flush_events message s).
Proof.
  unfold flush_events. destruct (get_turnComplete message); [|constructor].
  apply Forall_app. split; case_match; repeat constructor.
Qed.

(** What the chunk block does to a service with an output context. *)
Lemma on_audio_chunk_run now chunk (s : GeminiLiveService) ctx :
  outputAudioContext s = Some ctx →
  on_audio_chunk decodeAudioData now chunk s =
    match decodeAudioData chunk with
    | Some audioBuffer =>
        (tt,
         set_sources (Set_add (created s) (sources s))
           (set_nextStartTime (Math_max (nextStartTime s) now + duration audioBuffer)%Q
              (set_created (S (created s)) s)),
         [ OnVolumeChange (1 # 2)%Q;
           SourceStart (created s) audioBuffer (Math_max (nextStartTime s) now) ])
    | None =>
        (tt, set_nextStartTime (Math_max (nextStartTime s) now) s,
         [ ConsoleError "Audio decode error:" ])
    end.
Proof.
  intros Hctx. destruct s as [ic oc sp ms nst src sess cin cout cr].
  simpl in Hctx. subst oc.
  unfold on_audio_chunk, schedule.
  destruct (decodeAudioData chunk) as [audioBuffer|]; repeat (run; cbn); reflexivity.
Qed.

(** [handleMessage] in three steps: the transcript fields, then the chunk,
    then the interruption. *)
Lemma handleMessage_shape message now (s : GeminiLiveService) :
  let s1 := set_currentInputTranscription (left_open true message s)
              (set_currentOutputTranscription (left_open false message s) s) in
  let r := dispatch decodeAudioData
             (option_list (AudioChunk <$> guarded message s)) now s1 in
  let r' := if interrupts message then on_interruption (state_of r)
            else (tt, state_of r, []) in
  handleMessage decodeAudioData message now s =
    (tt, state_of r',
     (delta_events message s ++ flush_events message s)
       ++ trace_of r ++ trace_of r').
Proof.
  intros s1 r r'.
  rewrite handleMessage_dispatch. unfold applied.
  rewrite app_assoc. unfold dispatch in *.
  rewrite for_of_app_run.
  pose proof (transcript_part_run message now s) as Hrun.
  unfold dispatch in Hrun. rewrite Hrun. clear Hrun.
  rewrite for_of_app_run.
  fold s1. subst r'. rewrite <- (interruption_fields (interrupts message) now).
  subst r. destruct (for_of _ _ s1) as [[[] s2] t2].
  unfold state_of, trace_of. simpl.
  destruct (for_of _ _ s2) as [[[] s3] t3]. reflexivity.
Qed.

Lemma chunk_part_run (g : option string) now (s : GeminiLiveService) :
  dispatch decodeAudioData (option_list (AudioChunk <$> g)) now s =
    match g with
    | Some chunk => on_audio_chunk decodeAudioData now chunk s
    | None => (tt, s, [])
    end.
Proof.
  destruct g as [chunk|]; [|done].
  unfold dispatch. simpl. run.
  destruct (on_audio_chunk decodeAudioData now chunk s) as [[[] s'] t'].
  rewrite app_nil_r. reflexivity.
Qed.

Lemma guarded_context message (s : GeminiLiveService) chunk :
  guarded message s = Some chunk →
  get_base64Audio message = Normal (Some chunk) ∧ truthy chunk = true
  ∧ ∃ ctx, outputAudioContext s = Some ctx.
Proof.
  unfold guarded, audio_guard.
  destruct (get_base64Audio message) as [[c|]|]; [|discriminate..].
  destruct (outputAudioContext s) as [ctx|]; [|discriminate].
  destruct (truthy c) eqn:Hc; [|discriminate].
  intros [= ->]. eauto.
Qed.

Lemma guarded_open message (s : GeminiLiveService) chunk ctx :
  get_base64Audio message = Normal (Some chunk) → truthy chunk = true →
  outputAudioContext s = Some ctx →
  guarded message s = Some chunk.
Proof. unfold guarded, audio_guard. intros -> -> ->. reflexivity. Qed.

Lemma interrupts_false message :
  get_interrupted message = false → interrupts message = false.
Proof. unfold interrupts. intros ->. by destruct (get_base64Audio message). Qed.

Lemma interrupts_read message base64Audio :
  get_base64Audio message = Normal base64Audio →
  interrupts message = get_interrupted message.
Proof. unfold interrupts. by intros ->. Qed.


(** [handleMessage] in closed form. *)
Lemma handleMessage_run message now (s : GeminiLiveService) :
  let s1 := set_currentInputTranscription (left_open true message s)
              (set_currentOutputTranscription (left_open false message s) s) in
  let '(s2, t2) := chunk_block decodeAudioData message now s1 in
  handleMessage decodeAudioData message now s =
    (tt,
     (if interrupts message
      then set_nextStartTime 0%Q
             (set_currentOutputTranscription "" (set_sources [] s2))
      else s2),
     (delta_events message s ++ flush_events message s)
       ++ t2 ++ (if interrupts message then SourceStop <$> sources s2 else [])).
Proof.
  intros s1. pose proof (handleMessage_shape message now s) as Hshape.
  cbv zeta in Hshape. fold s1 in Hshape. rewrite Hshape. clear Hshape.
  rewrite chunk_part_run. unfold chunk_block.
  change (guarded message s1) with (guarded message s).
  destruct (guarded message s) as [chunk|] eqn:Hguard.
  - apply guarded_context in Hguard as (_ & _ & ctx & Hctx).
    rewrite (on_audio_chunk_run now chunk s1 ctx Hctx).
    destruct (decodeAudioData chunk) as [audioBuffer|];
      unfold state_of, trace_of; simpl;
      rewrite on_interruption_run;
      destruct (interrupts message); reflexivity.
  - unfold state_of, trace_of; simpl.
    rewrite on_interruption_run.
    destruct (interrupts message); reflexivity.
Qed.

Lemma handleMessages_cons message now rest (s : GeminiLiveService) :
  state_of (handleMessages decodeAudioData ((message, now) :: rest) s) =
    state_of (handleMessages decodeAudioData rest
                (state_of (handleMessage decodeAudioData message now s)))
  ∧ trace_of (handleMessages decodeAudioData ((message, now) :: rest) s) =
      trace_of (handleMessage decodeAudioData message now s)
      ++ trace_of (handleMessages decodeAudioData rest
                     (state_of (handleMessage decodeAudioData message now s))).
Proof.
  apply (for_of_cons (message, now) rest
           (λ arrival, handleMessage decodeAudioData arrival.1 arrival.2)).
Qed.

Lemma handleMessages_nil (s : GeminiLiveService) :
  state_of (handleMessages decodeAudioData [] s) = s
  ∧ trace_of (handleMessages decodeAudioData [] s) = [].
Proof. done. Qed.

Lemma handleMessages_app before after (s : GeminiLiveService) :
  state_of (handleMessages decodeAudioData (before ++ after) s) =
    state_of (handleMessages decodeAudioData after
                (state_of (handleMessages decodeAudioData before s)))
  ∧ trace_of (handleMessages decodeAudioData (before ++ after) s) =
      trace_of (handleMessages decodeAudioData before s)
      ++ trace_of (handleMessages decodeAudioData after
                     (state_of (handleMessages decodeAudioData before s))).
Proof. apply for_of_app. Qed.

Lemma starts_stops (xs : list nat) : starts (SourceStop <$> xs) = [].
Proof. induction xs; done. Qed.

Lemma statuses_stops (xs : list nat) : statuses (SourceStop <$> xs) = [].
Proof. induction xs; done. Qed.

Lemma transcripts_stops isUser (xs : list nat) :
  transcripts isUser (SourceStop <$> xs) = [].
Proof. induction xs; done. Qed.

Lemma duration_nonneg (b : AudioBuffer) : (0 <= duration b)%Q.
Proof. unfold duration, Qle. simpl. lia. Qed.

Lemma Math_max_ahead (a b : Q) : (b <= a)%Q → Math_max a b = a.
Proof.
  intros Hle. unfold Math_max, Qmax, GenericMinMax.gmax.
  destruct (a ?= b)%Q eqn:Hcmp; try reflexivity.
  apply Qlt_alt in Hcmp. apply Qlt_not_le in Hcmp. contradiction.
Qed.

(** The two halves of [handleMessage] around its [await]. *)
Lemma until_await_nextStartTime message now (s : GeminiLiveService) :
  nextStartTime (state_of (handleMessage_until_await message now s)) =
    match guarded message s with
    | Some _ => Math_max (nextStartTime s) now
    | None => if interrupts message then 0%Q else nextStartTime s
    end.
Proof.
  unfold handleMessage_until_await, guarded, interrupts, audio_guard,
    get_interrupted.
  generalize (get_base64Audio message). intros audio.
  destruct s as [ic oc sp ms nst src sess cin cout cr].
  destruct message as [[[[[out]|] [[inp]|] [] turn []]|]];
    destruct audio as [[chunk|]|], oc as [ctx|];
    unfold transcription, turnCompletion, interruption, get_outputTranscription,
      get_inputTranscription, get_turnComplete, get_interrupted;
    repeat first
      [ progress run | progress cbn | rewrite stopAllAudio_run
      | match goal with
        | |- context [truthy ?x] => destruct (truthy x) eqn:?
        end ];
    reflexivity.
Qed.

Lemma after_await_run message decoded (s : GeminiLiveService) :
  let '(s2, t2) :=
    match decoded, outputAudioContext s with
    | Some audioBuffer, Some _ =>
        (set_sources (Set_add (created s) (sources s))
           (set_nextStartTime (nextStartTime s + duration audioBuffer)%Q
              (set_created (S (created s)) s)),
         [ OnVolumeChange (1 # 2)%Q;
           SourceStart (created s) audioBuffer (nextStartTime s) ])
    | _, _ => (s, [ ConsoleError "Audio decode error:" ])
    end in
  handleMessage_after_await message decoded s =
    (tt,
     (if get_interrupted message
      then set_nextStartTime 0%Q
             (set_currentOutputTranscription "" (set_sources [] s2))
      else s2),
     t2 ++ (if get_interrupted message then SourceStop <$> sources s2 else [])).
Proof.
  unfold handleMessage_after_await, schedule.
  destruct s as [ic oc sp ms nst src sess cin cout cr].
  destruct decoded as [audioBuffer|], oc as [ctx|];
    repeat (run; cbn);
    rewrite interruption_run, on_interruption_run;
    destruct (get_interrupted message); reflexivity.
Qed.







Lemma handleMessage_raises message now (s : GeminiLiveService) :
  get_interrupted message = false →
  (nextStartTime s
     <= nextStartTime (state_of (handleMessage decodeAudioData message now s)))%Q.
Proof.
  intros Hint.
  pose proof (handleMessage_run message now s) as Hrun. cbv zeta in Hrun.
  unfold chunk_block in Hrun. rewrite (interrupts_false _ Hint) in Hrun.
  destruct (guarded message _) as [chunk|];
    [destruct (decodeAudioData chunk) as [audioBuffer|]|];
    rewrite Hrun; unfold state_of; simpl.
  - pose proof (duration_nonneg audioBuffer).
    pose proof (Q.le_max_l (nextStartTime s) now).
    unfold Math_max. lra.
  - apply Q.le_max_l.
  - apply Qle_refl.
Qed.

(** C9: while no interruption is handled, neither half of
    [handleMessage] (up to its [await], after its [await]) lowers
    [nextStartTime], whatever ran in between; and along any sequence of
    messages without interruption [nextStartTime] is non-decreasing from
    every point of the sequence on. *)
Theorem nextStartTime_never_lowered :
  (∀ message now (s : GeminiLiveService),
     get_interrupted message = false →
     (nextStartTime s
        <= nextStartTime (state_of (handleMessage_until_await message now s)))%Q
     ∧ ∀ decoded (s' : GeminiLiveService),
         (nextStartTime s'
            <= nextStartTime (state_of (handleMessage_after_await message decoded s')))%Q)
  ∧ (∀ before after (s : GeminiLiveService),
       Forall (λ arrival, get_interrupted arrival.1 = false) after →
       (nextStartTime (state_of (handleMessages decodeAudioData before s))
          <= nextStartTime
               (state_of (handleMessages decodeAudioData (before ++ after) s)))%Q).
Proof.
  split.
  - intros message now s Hint. split.
    + rewrite until_await_nextStartTime, (interrupts_false _ Hint).
      destruct (guarded message s); [apply Q.le_max_l|apply Qle_refl].
    + intros decoded s'.
      pose proof (after_await_run message decoded s') as Hrun.
      rewrite Hint in Hrun.
      destruct decoded as [audioBuffer|], (outputAudioContext s') as [ctx|];
        rewrite Hrun; unfold state_of; simpl; try apply Qle_refl.
      pose proof (duration_nonneg audioBuffer). lra.
  - intros before after s Hafter.
    destruct (handleMessages_app before after s) as [-> _].
    generalize (state_of (handleMessages decodeAudioData before s)). intros s0.
    revert s0. induction Hafter as [|[message now] after Hint _ IH]; intros s0.
    + apply Qle_refl.
    + destruct (handleMessages_cons message now after s0) as [-> _].
      eapply Qle_trans; [|apply IH].
      apply handleMessage_raises, Hint.
Qed.

(** C7 (as amended): a chunk that fails to decode is dropped with a
    diagnostic: no status callback, no buffer started or tracked, the
    contexts, the stream and the session stay as they are and the messages
    that follow are handled from the state it leaves; [nextStartTime] is
    not advanced by any duration, it is only clamped to
    [max(nextStartTime, currentTime)], which leaves it unchanged when the
    clock is not ahead of it. *)
Theorem undecodable_chunk_dropped message now (s : GeminiLiveService) ctx chunk :
  get_base64Audio message = Normal (Some chunk) → truthy chunk = true →
  outputAudioContext s = Some ctx →
  decodeAudioData chunk = None →
  let r := handleMessage decodeAudioData message now s in
  statuses (trace_of r) = []
  ∧ starts (trace_of r) = []
  ∧ ConsoleError "Audio decode error:" ∈ trace_of r
  ∧ inputAudioContext (state_of r) = inputAudioContext s
  ∧ outputAudioContext (state_of r) = outputAudioContext s
  ∧ scriptProcessor (state_of r) = scriptProcessor s
  ∧ mediaStream (state_of r) = mediaStream s
  ∧ sessionPromise (state_of r) = sessionPromise s
  ∧ created (state_of r) = created s
  ∧ sources (state_of r) = (if get_interrupted message then [] else sources s)
  ∧ nextStartTime (state_of r) =
      (if get_interrupted message then 0%Q else Math_max (nextStartTime s) now)
  ∧ ((now <= nextStartTime s)%Q → Math_max (nextStartTime s) now = nextStartTime s)
  ∧ (∀ later,
       state_of (handleMessages decodeAudioData ((message, now) :: later) s) =
         state_of (handleMessages decodeAudioData later (state_of r))).
Proof.
  intros Hchunk Htruthy Hctx Hdec r.
  assert (Hlater : ∀ later,
    state_of (handleMessages decodeAudioData ((message, now) :: later) s) =
      state_of (handleMessages decodeAudioData later (state_of r))).
  { intros later. apply handleMessages_cons. }
  subst r.
  pose proof (handleMessage_run message now s) as Hrun. cbv zeta in Hrun.
  unfold chunk_block in Hrun.
  assert (Hguard : ∀ a b,
    guarded message
      (set_currentInputTranscription a (set_currentOutputTranscription b s))
    = Some chunk) by (intros; apply (guarded_open _ _ _ ctx); done).
  rewrite Hguard, Hdec, (interrupts_read _ _ Hchunk) in Hrun.
  rewrite Hrun in *. unfold state_of, trace_of. simpl.
  rewrite !statuses_app, !starts_app.
  rewrite (proj1 (transcript_events_silent _ (transcript_events_delta message s))).
  rewrite (proj2 (transcript_events_silent _ (transcript_events_delta message s))).
  rewrite (proj1 (transcript_events_silent _ (transcript_events_flush message s))).
  rewrite (proj2 (transcript_events_silent _ (transcript_events_flush message s))).
  split_and!; try (destruct (get_interrupted message); simpl;
                   rewrite ?statuses_stops, ?starts_stops; done).
  - apply elem_of_app. right. apply list_elem_of_here.
  - apply Math_max_ahead.
Qed.

(** *** The transcript side of [handleMessage] *)

Lemma chunk_block_transcripts message now (s : GeminiLiveService) isUser :
  transcripts isUser (chunk_block decodeAudioData message now s).2 = []
  ∧ transcription_of isUser (chunk_block decodeAudioData message now s).1 = transcription_of isUser s.
Proof.
  unfold chunk_block.
  destruct (guarded message s) as [chunk|];
    [destruct (decodeAudioData chunk)|]; destruct isUser; done.
Qed.

Lemma transcript_view message now (s : GeminiLiveService) isUser :
  transcripts isUser (trace_of (handleMessage decodeAudioData message now s)) =
    transcripts isUser (delta_events message s ++ flush_events message s)
  ∧ transcription_of isUser (state_of (handleMessage decodeAudioData message now s)) =
      (if interrupts message && negb isUser then ""
       else left_open isUser message s).
Proof.
  pose proof (handleMessage_run message now s) as Hrun. cbv zeta in Hrun.
  match type of Hrun with
  | context [chunk_block decodeAudioData message now ?x] =>
      destruct (chunk_block_transcripts message now x isUser) as [Ht Hs];
      destruct (chunk_block decodeAudioData message now x) as [s2 t2]
  end.
  rewrite Hrun. unfold state_of, trace_of. simpl in *.
  rewrite !transcripts_app, Ht.
  destruct (interrupts message), isUser;
    simpl in *; rewrite ?transcripts_stops, ?app_nil_r; done.
Qed.

Lemma append_nil_r (x : string) : x +:+ "" = x.
Proof.
  induction x as [|c x IH]; [done|].
  change (String c (x +:+ "") = String c x). by rewrite IH.
Qed.

Lemma append_assoc (x y z : string) : (x +:+ y) +:+ z = x +:+ (y +:+ z).
Proof.
  induction x as [|c x IH]; [done|].
  change (String c ((x +:+ y) +:+ z) = String c (x +:+ (y +:+ z))). by rewrite IH.
Qed.

Lemma nonfinal_filtered (texts : list string) :
  (filter (λ e : string * bool, e.2 = true) ((λ t, (t, false)) <$> texts)).*1 = [].
Proof.
  induction texts as [|t texts IH]; [done|].
  rewrite fmap_cons, filter_cons_False by (simpl; discriminate). exact IH.
Qed.

Lemma finals_nonfinal isUser (texts : list string) tr :
  transcripts isUser tr = (λ t, (t, false)) <$> texts → finals isUser tr = [].
Proof. unfold finals. intros ->. apply nonfinal_filtered. Qed.

Lemma delta_message_view isUser d now (s : GeminiLiveService) :
  let r := handleMessage decodeAudioData (delta_message isUser d) now s in
  transcripts isUser (trace_of r) = [(transcription_of isUser s +:+ d, false)]
  ∧ transcription_of isUser (state_of r) = transcription_of isUser s +:+ d.
Proof.
  intros r. subst r.
  destruct (transcript_view (delta_message isUser d) now s isUser) as [-> ->].
  destruct isUser; done.
Qed.

Lemma turn_complete_view isUser now (s : GeminiLiveService) :
  let r := handleMessage decodeAudioData turn_complete_message now s in
  transcripts isUser (trace_of r) =
    (if truthy (transcription_of isUser s)
     then [(transcription_of isUser s, true)] else [])
  ∧ transcription_of isUser (state_of r) = "".
Proof.
  intros r. subst r.
  destruct (transcript_view turn_complete_message now s isUser) as [-> ->].
  unfold delta_events, flush_events, grown. simpl.
  destruct isUser; simpl;
    destruct (truthy (currentInputTranscription s)),
             (truthy (currentOutputTranscription s)); done.
Qed.

Lemma one_turn_run isUser deltas now (s : GeminiLiveService) :
  let r := handleMessages decodeAudioData (one_turn isUser deltas now) s in
  let accumulated := transcription_of isUser s +:+ joined deltas.*1 in
  transcripts isUser (trace_of r) =
    ((λ t, (t, false)) <$> accumulations (transcription_of isUser s) deltas.*1)
      ++ (if truthy accumulated then [(accumulated, true)] else [])
  ∧ transcription_of isUser (state_of r) = "".
Proof.
  revert s. induction deltas as [|[d at_] deltas IH]; intros s; cbv zeta.
  - unfold one_turn. simpl.
    destruct (handleMessages_cons turn_complete_message now [] s) as [-> ->].
    destruct (handleMessages_nil
                (state_of (handleMessage decodeAudioData turn_complete_message now s)))
      as [-> ->].
    rewrite !app_nil_r, append_nil_r. apply turn_complete_view.
  - unfold one_turn. rewrite fmap_cons, <- app_comm_cons. simpl fst. simpl snd.
    destruct (handleMessages_cons (delta_message isUser d) at_
                (((λ d, (delta_message isUser d.1, d.2)) <$> deltas)
                   ++ [(turn_complete_message, now)]) s) as [-> ->].
    destruct (delta_message_view isUser d at_ s) as [Htr Hst].
    specialize (IH (state_of (handleMessage decodeAudioData (delta_message isUser d) at_ s))).
    cbv zeta in IH. unfold one_turn in IH. destruct IH as [IHtr IHst].
    rewrite transcripts_app, Htr, IHtr, IHst, Hst.
    simpl. rewrite append_assoc. done.
Qed.

Lemma one_turn_finals isUser deltas now (s : GeminiLiveService) :
  finals isUser
    (trace_of (handleMessages decodeAudioData (one_turn isUser deltas now) s)) =
    (if truthy (transcription_of isUser s +:+ joined deltas.*1)
     then [transcription_of isUser s +:+ joined deltas.*1] else []).
Proof.
  destruct (one_turn_run isUser deltas now s) as [Htr _].
  unfold finals. rewrite Htr, filter_app, fmap_app, nonfinal_filtered.
  destruct (truthy _); done.
Qed.

(** C2 (as amended): deltas of one speaker followed by one turn-complete
    yield exactly one final event of that speaker, whose text is the text
    accumulated in arrival order, when that text is not empty, and no
    final event when it is empty; the buffer of the speaker is empty
    afterwards. The accumulated text is the concatenation of the deltas
    when the buffer was empty at the start. *)
Theorem turn_flushed isUser (deltas : list (string * Q)) now (s : GeminiLiveService) :
  let r := handleMessages decodeAudioData (one_turn isUser deltas now) s in
  let accumulated := transcription_of isUser s +:+ joined deltas.*1 in
  finals isUser (trace_of r) = (if truthy accumulated then [accumulated] else [])
  ∧ transcription_of isUser (state_of r) = ""
  ∧ (transcription_of isUser s = "" → accumulated = joined deltas.*1).
Proof.
  intros r accumulated.
  split_and!.
  - apply one_turn_finals.
  - apply one_turn_run.
  - subst accumulated. by intros ->.
Qed.

(** *** Interruption *)




(** *** Transcript events along a turn *)

Lemma extends_refl t : extends t t.
Proof. exists "". by rewrite append_nil_r. Qed.

Lemma joined_app xs ys : joined (xs ++ ys) = joined xs +:+ joined ys.
Proof.
  induction xs as [|x xs IH]; [done|].
  change (x +:+ joined (xs ++ ys) = (x +:+ joined xs) +:+ joined ys).
  by rewrite IH, append_assoc.
Qed.

Lemma accumulations_app opened xs ys :
  accumulations opened (xs ++ ys) =
    accumulations opened xs ++ accumulations (opened +:+ joined xs) ys.
Proof.
  revert opened. induction xs as [|x xs IH]; intros opened.
  - simpl. by rewrite append_nil_r.
  - simpl. rewrite IH.
    change (joined (x :: xs)) with (x +:+ joined xs).
    by rewrite append_assoc.
Qed.

Lemma successive_app opened xs ys :
  successive opened xs → successive (default opened (last xs)) ys →
  successive opened (xs ++ ys).
Proof.
  revert opened. induction xs as [|x xs IH]; intros opened.
  { intros _ Hys. exact Hys. }
  intros [Hx Hxs] Hys. split; [done|]. apply IH; [done|].
  destruct xs as [|x' xs]; [exact Hys|].
  change (last (x :: x' :: xs)) with (last (x' :: xs)) in Hys.
  destruct (last (x' :: xs)) eqn:Hlast; [exact Hys|].
  apply last_None in Hlast. discriminate.
Qed.

Lemma successive_accumulations opened deltas :
  successive opened (accumulations opened deltas)
  ∧ default opened (last (accumulations opened deltas)) = opened +:+ joined deltas.
Proof.
  revert opened. induction deltas as [|d deltas IH]; intros opened.
  - simpl. by rewrite append_nil_r.
  - destruct (IH (opened +:+ d)) as [IH1 IH2]. split.
    + simpl. split; [by exists d|done].
    + change (joined (d :: deltas)) with (d +:+ joined deltas).
      rewrite <- append_assoc, <- IH2. simpl.
      destruct (accumulations (opened +:+ d) deltas) as [|t ts] eqn:Hacc; [done|].
      change (last ((opened +:+ d) :: t :: ts)) with (last (t :: ts)).
      destruct (last (t :: ts)) eqn:Hlast; [done|].
      apply last_None in Hlast. discriminate.
Qed.

Lemma successive_same opened t (texts : list string) :
  extends opened t → Forall (λ t', t' = t) texts → successive opened texts.
Proof.
  intros Hext Hall. revert opened Hext.
  induction Hall as [|t' texts -> _ IH]; intros opened Hext; [done|].
  split; [done|]. apply IH, extends_refl.
Qed.

Lemma nonfinal_texts (texts : list string) :
  ((λ t, (t, false)) <$> texts).*1 = texts.
Proof. induction texts as [|t texts IH]; [done|]. csimpl. by rewrite IH. Qed.

(** Every event of a message, final or not, carries the buffer of the
    speaker with the delta of the message appended. *)
Lemma events_grown isUser message now (s : GeminiLiveService) :
  Forall (λ e, e.1 = grown isUser message s)
    (transcripts isUser (trace_of (handleMessage decodeAudioData message now s))).
Proof.
  destruct (transcript_view message now s isUser) as [-> _].
  unfold delta_events, flush_events, grown, appended.
  destruct (get_outputTranscription message) as [[out]|],
           (get_inputTranscription message) as [[inp]|],
           (get_turnComplete message), isUser; simpl;
    repeat (match goal with
            | |- context [truthy ?x] => destruct (truthy x)
            end; simpl);
    repeat constructor.
Qed.

Lemma open_message_view isUser message now (s : GeminiLiveService) :
  keeps_open isUser message →
  transcripts isUser (trace_of (handleMessage decodeAudioData message now s)) =
    (λ t, (t, false))
      <$> accumulations (transcription_of isUser s) (option_list (appended isUser message))
  ∧ transcription_of isUser (state_of (handleMessage decodeAudioData message now s)) =
      transcription_of isUser s +:+ joined (option_list (appended isUser message)).
Proof.
  intros [Htc Hint].
  destruct (transcript_view message now s isUser) as [-> ->].
  unfold delta_events, flush_events, left_open, grown, appended. rewrite Htc.
  assert (Hquiet : interrupts message && negb isUser = false).
  { destruct isUser; [apply andb_false_r|]. by rewrite interrupts_false by auto. }
  rewrite Hquiet.
  destruct (get_outputTranscription message) as [[out]|],
           (get_inputTranscription message) as [[inp]|], isUser; simpl;
    unfold joined; simpl; rewrite ?append_nil_r; done.
Qed.

Lemma open_turn_run isUser inbound (s : GeminiLiveService) :
  Forall (λ arrival, keeps_open isUser arrival.1) inbound →
  let deltas := omap (λ arrival, appended isUser arrival.1) inbound in
  transcripts isUser (trace_of (handleMessages decodeAudioData inbound s)) =
    (λ t, (t, false)) <$> accumulations (transcription_of isUser s) deltas
  ∧ transcription_of isUser (state_of (handleMessages decodeAudioData inbound s)) =
      transcription_of isUser s +:+ joined deltas.
Proof.
  intros Hopen. revert s.
  induction Hopen as [|[message now] inbound Hm _ IH]; intros s; cbv zeta.
  - simpl. by rewrite append_nil_r.
  - destruct (handleMessages_cons message now inbound s) as [-> ->].
    destruct (open_message_view isUser message now s Hm) as [Htr Hst].
    specialize (IH (state_of (handleMessage decodeAudioData message now s))).
    cbv zeta in IH. destruct IH as [IHtr IHst].
    rewrite transcripts_app, Htr, IHtr, IHst, Hst.
    replace (omap (λ arrival, appended isUser arrival.1) ((message, now) :: inbound))
      with (option_list (appended isUser message)
              ++ omap (λ arrival, appended isUser arrival.1) inbound)
      by (simpl; destruct (appended isUser message); done).
    rewrite accumulations_app, joined_app, fmap_app, append_assoc. done.
Qed.

Lemma grown_joined isUser message (s : GeminiLiveService) :
  grown isUser message s =
    transcription_of isUser s +:+ joined (option_list (appended isUser message)).
Proof.
  unfold grown. destruct (appended isUser message) as [d|].
  - change (joined (option_list (Some d))) with (d +:+ ""). by rewrite append_nil_r.
  - by rewrite append_nil_r.
Qed.

(** C10 (as amended): along a turn of a speaker (messages that neither
    complete the turn nor, for the Model, interrupt it), every transcript
    event of the speaker carries the text the turn had when it opened
    followed by every delta appended since, the one of its own message
    included; so do the events, final or not, of the message that comes
    next, whatever it is; each text has the previous one as a prefix. The
    deltas appended are all the deltas of the Model, and the deltas of the
    User that arrive without a Model delta in the same message. *)
Theorem events_carry_accumulation isUser inbound closing now (s : GeminiLiveService) :
  Forall (λ arrival, keeps_open isUser arrival.1) inbound →
  let deltas := omap (λ arrival, appended isUser arrival.1) inbound in
  let opened := transcription_of isUser s in
  let s' := state_of (handleMessages decodeAudioData inbound s) in
  transcripts isUser (trace_of (handleMessages decodeAudioData inbound s)) =
    (λ t, (t, false)) <$> accumulations opened deltas
  ∧ transcription_of isUser s' = opened +:+ joined deltas
  ∧ Forall (λ e, e.1 = opened +:+ joined (deltas ++ option_list (appended isUser closing)))
      (transcripts isUser (trace_of (handleMessage decodeAudioData closing now s')))
  ∧ successive opened
      (transcripts isUser
         (trace_of (handleMessages decodeAudioData (inbound ++ [(closing, now)]) s))).*1
  ∧ appended false closing = delta_of false closing
  ∧ (get_outputTranscription closing = None →
     appended true closing = delta_of true closing).
Proof.
  intros Hopen deltas opened s'.
  destruct (open_turn_run isUser inbound s Hopen) as [Htr Hst].
  fold deltas opened s' in Htr, Hst.
  assert (Hclosing :
    Forall (λ e, e.1 = opened +:+ joined (deltas ++ option_list (appended isUser closing)))
      (transcripts isUser (trace_of (handleMessage decodeAudioData closing now s')))).
  { eapply Forall_impl; [apply events_grown|].
    intros e ->. by rewrite grown_joined, Hst, joined_app, append_assoc. }
  split_and!; try done.
  - destruct (handleMessages_app inbound [(closing, now)] s) as [_ ->].
    fold s'.
    destruct (handleMessages_cons closing now [] s') as [_ ->].
    destruct (handleMessages_nil
                (state_of (handleMessage decodeAudioData closing now s'))) as [_ ->].
    rewrite app_nil_r, transcripts_app, Htr, fmap_app, nonfinal_texts.
    destruct (successive_accumulations opened deltas) as [Hsucc Hlast].
    apply successive_app; [done|]. rewrite Hlast.
    apply successive_same
      with (t := opened +:+ joined (deltas ++ option_list (appended isUser closing))).
    + exists (joined (option_list (appended isUser closing))).
      by rewrite joined_app, append_assoc.
    + apply Forall_fmap. exact Hclosing.
  - unfold appended, delta_of. by intros ->.
Qed.

(** *** Which fields are applied *)




End Playback.

(** * Connecting and disconnecting *)

Section Session.
Import Wire Service.

Lemma track_loop (ts : list nat) (s : GeminiLiveService) :
  for_of ts (λ track, call (TrackStop track)) s = (tt, s, TrackStop <$> ts).
Proof.
  induction ts as [|t ts IH]; [done|].
  simpl for_of. unfold call in *. run. rewrite IH. reflexivity.
Qed.

(** [disconnect] in closed form. *)
Lemma disconnect_run (s : GeminiLiveService) :
  disconnect s =
    (tt,
     {| inputAudioContext := None;
        outputAudioContext := None;
        scriptProcessor :=
          (λ _, {| connected := false; onaudioprocess := false |}) <$> scriptProcessor s;
        mediaStream := None;
        nextStartTime := nextStartTime s;
        sources := [];
        sessionPromise := None;
        currentInputTranscription := currentInputTranscription s;
        currentOutputTranscription := currentOutputTranscription s;
        created := created s |},
     match scriptProcessor s with
     | Some _ => [ProcessorDisconnect]
     | None => []
     end
       ++ (TrackStop <$> default [] (tracks <$> mediaStream s))
       ++ (SourceStop <$> sources s)
       ++ option_list (ContextClose <$> inputAudioContext s)
       ++ option_list (ContextClose <$> outputAudioContext s)).
Proof.
  pose proof track_loop as Htracks. unfold call in Htracks.
  destruct s as [ic oc sp ms nst src sess cin cout cr].
  unfold disconnect.
  destruct sp as [node|], ms as [[ts]|], ic as [ictx|], oc as [octx|];
    repeat first
      [ progress run | progress cbn
      | rewrite Htracks | rewrite stopAllAudio_run ];
    rewrite ?app_nil_r; reflexivity.
Qed.

Lemma disconnect_teardown (s : GeminiLiveService) :
  Forall teardown_event (trace_of (disconnect s)).
Proof.
  rewrite disconnect_run. unfold trace_of. simpl.
  repeat apply Forall_app_2.
  - destruct (scriptProcessor s); repeat constructor.
  - apply Forall_fmap, Forall_true. done.
  - apply Forall_fmap, Forall_true. done.
  - destruct (inputAudioContext s); repeat constructor.
  - destruct (outputAudioContext s); repeat constructor.
Qed.

Lemma teardown_silent tr : Forall teardown_event tr → statuses tr = [].
Proof.
  induction 1 as [|e tr He _ IH]; [done|].
  destruct e; simpl in He; try contradiction; done.
Qed.

(** C5: [disconnect] stops capture, stops every active buffer and empties
    the set, closes and releases the audio contexts, the stream and the
    session handle, but it leaves [nextStartTime] as it is, where the
    interruption path resets it after the same [stopAllAudio]: a service
    that had scheduled audio up to 1.5 keeps 1.5 through [disconnect], and
    after the next [connect] the first chunk, arriving at clock 0 of the
    new context, is started at 1.5. *)
Theorem disconnect_keeps_nextStartTime :
  (∀ s : GeminiLiveService,
     let r := disconnect s in
     scriptProcessor (state_of r) =
       (λ _, {| connected := false; onaudioprocess := false |}) <$> scriptProcessor s
     ∧ (scriptProcessor s ≠ None → ProcessorDisconnect ∈ trace_of r)
     ∧ (∀ stream track, mediaStream s = Some stream → track ∈ tracks stream →
          TrackStop track ∈ trace_of r)
     ∧ (∀ source, source ∈ sources s → SourceStop source ∈ trace_of r)
     ∧ sources (state_of r) = []
     ∧ (∀ ctx, inputAudioContext s = Some ctx ∨ outputAudioContext s = Some ctx →
          ContextClose ctx ∈ trace_of r)
     ∧ inputAudioContext (state_of r) = None
     ∧ outputAudioContext (state_of r) = None
     ∧ mediaStream (state_of r) = None
     ∧ sessionPromise (state_of r) = None
     ∧ nextStartTime (state_of r) = nextStartTime s)
  ∧ nextStartTime (state_of (disconnect Sample.speaking)) = (3 # 2)%Q
  ∧ nextStartTime
      (state_of (handleMessage Sample.decoder interruption_message 0%Q
                   Sample.speaking)) = 0%Q
  ∧ starts
      (trace_of
         (handleMessage Sample.decoder (audio_message "AAAA") 0%Q
            (state_of (connect 16000 24000 (Some Sample.microphone)
                         (state_of (disconnect Sample.speaking)))))) =
      [(2%nat, {| frames := 24000; rate := 24000 |}, (3 # 2)%Q)].
Proof.
  split; [|by vm_compute].
  intros s r. subst r. rewrite disconnect_run. unfold state_of, trace_of. simpl.
  split_and!; try done.
  - intros Hsp. destruct (scriptProcessor s); [|done].
    apply list_elem_of_here.
  - intros stream track -> Hin. rewrite !elem_of_app. right. left.
    apply list_elem_of_fmap. eauto.
  - intros source Hin. rewrite !elem_of_app. right. right. left.
    apply list_elem_of_fmap. eauto.
  - intros ctx [-> | ->]; rewrite !elem_of_app; right; right; right.
    + left. apply list_elem_of_here.
    + right. apply list_elem_of_here.
Qed.

(** C6 (as amended): [connect] has no guard of its own: in every state it
    first calls the status callback with [CONNECTING], creates two audio
    contexts and asks for the microphone. The guard is in the caller:
    [toggleConnection], when the status is [CONNECTED] or [CONNECTING],
    does not call [connect]; it calls [disconnect], which invokes no status
    callback and acquires nothing, and sets the status to
    [DISCONNECTED]. *)
Theorem connect_guarded_by_caller (SAMPLE_RATE_INPUT SAMPLE_RATE_OUTPUT : positive)
    (getUserMedia : option MediaStream) :
  (∀ s : GeminiLiveService,
     ∃ tr, trace_of (connect SAMPLE_RATE_INPUT SAMPLE_RATE_OUTPUT getUserMedia s) =
             OnStatusChange CONNECTING :: NewAudioContext SAMPLE_RATE_INPUT
               :: NewAudioContext SAMPLE_RATE_OUTPUT :: GetUserMedia :: tr)
  ∧ (∀ app : App.App,
       App.status app = CONNECTED ∨ App.status app = CONNECTING →
       let r := App.toggleConnection SAMPLE_RATE_INPUT SAMPLE_RATE_OUTPUT
                  getUserMedia app in
       App.status (fst r) = DISCONNECTED
       ∧ App.liveService (fst r) = state_of (disconnect (App.liveService app))
       ∧ snd r = trace_of (disconnect (App.liveService app))
       ∧ statuses (snd r) = []
       ∧ (∀ rate, NewAudioContext rate ∉ snd r)
       ∧ (GetUserMedia ∉ snd r)
       ∧ (LiveConnect ∉ snd r)).
Proof.
  split.
  - intros s. unfold connect.
    destruct getUserMedia as [stream|]; repeat (run; cbn).
    + eexists. reflexivity.
    + destruct (disconnect _) as [[[] s'] t']. eexists. reflexivity.
  - intros app Hstatus r. subst r. unfold App.toggleConnection.
    assert (Hguard : (bool_decide (App.status app = CONNECTED)
                      || bool_decide (App.status app = CONNECTING)) = true).
    { destruct Hstatus as [-> | ->]; done. }
    rewrite Hguard. simpl.
    pose proof (disconnect_teardown (App.liveService app)) as Htear.
    split_and!; try done.
    + by apply teardown_silent.
    + intros rate Hin. by eapply Forall_forall in Hin; [|exact Htear].
    + intros Hin. by eapply Forall_forall in Hin; [|exact Htear].
    + intros Hin. by eapply Forall_forall in Hin; [|exact Htear].
Qed.

End Session.

(** * Concrete runs *)

Section Runs.
Import Wire Service Dispatcher.



(** C2 on the deltas "Hel", "lo the", "re" of the Model. *)
Lemma turn_flushed_hello_there :
  finals false
    (trace_of (handleMessages Sample.decoder
                 (one_turn false [("Hel", 0%Q); ("lo the", 0%Q); ("re", 0%Q)] 0%Q)
                 Service.new)) = ["Hello there"]
  ∧ currentOutputTranscription
      (state_of (handleMessages Sample.decoder
                   (one_turn false [("Hel", 0%Q); ("lo the", 0%Q); ("re", 0%Q)] 0%Q)
                   Service.new)) = "".
Proof.
  pose proof (turn_flushed Sample.decoder false
                [("Hel", 0%Q); ("lo the", 0%Q); ("re", 0%Q)] 0%Q Service.new) as H.
  cbv zeta in H. destruct H as (H1 & H2 & _). split; [exact H1|exact H2].
Defined.

(** C2 as stated fails: a turn whose deltas are empty texts, or that has no
    delta at all, ends without any final event. *)
Lemma empty_turn_no_final :
  finals false
    (trace_of (handleMessages Sample.decoder (one_turn false [("", 0%Q)] 0%Q)
                 Service.new)) = []
  ∧ finals true
      (trace_of (handleMessages Sample.decoder (one_turn true [] 0%Q)
                   Service.new)) = [].
Proof. split; reflexivity. Qed.




(** C6 as stated fails: [connect] on a connected service calls the status
    callback and acquires contexts, microphone and session anew. *)
Lemma connect_while_connected :
  App.status Sample.connected = CONNECTED
  ∧ trace_of (connect 16000 24000 (Some Sample.microphone)
                (App.liveService Sample.connected)) =
      [ OnStatusChange CONNECTING; NewAudioContext 16000; NewAudioContext 24000;
        GetUserMedia; LiveConnect ].
Proof. split; reflexivity. Qed.

(** C6 on the connected component: the toggle disconnects. *)
Lemma toggle_while_connected :
  let r := App.toggleConnection 16000 24000 (Some Sample.microphone)
             Sample.connected in
  App.status (fst r) = DISCONNECTED ∧ statuses (snd r) = [].
Proof.
  pose proof (proj2 (connect_guarded_by_caller 16000 24000 (Some Sample.microphone))
                Sample.connected (or_introl eq_refl)) as H.
  cbv zeta in H. destruct H as (H1 & _ & _ & H4 & _).
  cbv zeta. split; [exact H1|exact H4].
Defined.

(** C7 on a chunk the sample decoder rejects, with the clock at 5. *)
Lemma undecodable_chunk_dropped_at_5 :
  let r := handleMessage Sample.decoder (audio_message "!") 5%Q Sample.listening in
  statuses (trace_of r) = [] ∧ starts (trace_of r) = []
  ∧ sources (state_of r) = []
  ∧ nextStartTime (state_of r) = Math_max 0 5.
Proof.
  pose proof (undecodable_chunk_dropped Sample.decoder (audio_message "!") 5%Q
                Sample.listening {| sampleRate := 24000 |} "!"
                eq_refl eq_refl eq_refl eq_refl) as H.
  cbv zeta in H.
  destruct H as (H1 & H2 & _ & _ & _ & _ & _ & _ & _ & H10 & H11 & _).
  cbv zeta. split_and!; [exact H1|exact H2|exact H10|exact H11].
Defined.

(** C7 as stated fails: the dropped chunk moves [nextStartTime] from 0 to
    the clock value 5. *)
Lemma dropped_chunk_clamps_nextStartTime :
  let r := handleMessage Sample.decoder (audio_message "!") 5%Q Sample.listening in
  Sample.decoder "!" = None
  ∧ nextStartTime Sample.listening = 0%Q
  ∧ nextStartTime (state_of r) = 5%Q
  ∧ ¬ (nextStartTime (state_of r) == nextStartTime Sample.listening)%Q.
Proof. cbv zeta. split_and!; try reflexivity. vm_compute. discriminate. Qed.

(** C8 on a final message followed by interleaved callbacks. *)
Lemma final_message_kept :
  let final := {| App.inv_id := "0"; App.inv_date := 0; App.inv_text := "hello";
                  App.inv_isUser := true; App.inv_isFinal := true |} in
  App.replay Sample.interleaved (App.replay [final] []) !! 0%nat =
    Some {| App.id := "0"; App.role := App.user; App.text := "hello";
            App.timestamp := 0; App.isFinal := true |}.
Proof.
  cbv zeta.
  apply (proj2 (visible_messages_settled
                  [ {| App.inv_id := "0"; App.inv_date := 0; App.inv_text := "hello";
                       App.inv_isUser := true; App.inv_isFinal := true |} ])
           Sample.interleaved 0%nat); reflexivity.
Defined.

(** C9 on the two chunks of the scenario followed by a delta. *)
Lemma nextStartTime_never_lowered_scenario :
  (nextStartTime
     (state_of (handleMessages Sample.decoder [(audio_message "AAAA", 0%Q)]
                  Sample.listening))
   <= nextStartTime
        (state_of (handleMessages Sample.decoder
                     ([(audio_message "AAAA", 0%Q)]
                        ++ [(audio_message "AA", 0%Q); (delta_message false "hi", 1%Q)])
                     Sample.listening)))%Q.
Proof.
  apply (proj2 (nextStartTime_never_lowered Sample.decoder)
           [(audio_message "AAAA", 0%Q)]
           [(audio_message "AA", 0%Q); (delta_message false "hi", 1%Q)]
           Sample.listening).
  repeat constructor.
Defined.

(** C10 on the deltas "Hel", "lo the", "re" of the Model. *)
Lemma events_carry_accumulation_hello :
  transcripts false
    (trace_of (handleMessages Sample.decoder
                 [(delta_message false "Hel", 0%Q); (delta_message false "lo the", 0%Q);
                  (delta_message false "re", 0%Q)] Service.new)) =
    [("Hel", false); ("Hello the", false); ("Hello there", false)].
Proof.
  apply (events_carry_accumulation Sample.decoder false
           [(delta_message false "Hel", 0%Q); (delta_message false "lo the", 0%Q);
            (delta_message false "re", 0%Q)] turn_complete_message 0%Q Service.new).
  repeat constructor.
Defined.

(** C10 as stated fails: a User delta that arrives in a message with a
    Model delta is not part of the text of the next User event. *)
Lemma shadowed_user_delta :
  let inbound := [(Sample.both_deltas, 0%Q); (delta_message true "b", 0%Q)] in
  omap (λ arrival, delta_of true arrival.1) inbound = ["hi"; "b"]
  ∧ transcripts true (trace_of (handleMessages Sample.decoder inbound Sample.listening))
      = [("b", false)].
Proof. split; reflexivity. Qed.

End Runs.

(** * The life of a connection *)

Section Lifecycle.
Import Wire Service.

Lemma connect_rejected_run (SAMPLE_RATE_INPUT SAMPLE_RATE_OUTPUT : positive)
    (s : GeminiLiveService) :
  let opened :=
    set_outputAudioContext (Some {| sampleRate := SAMPLE_RATE_OUTPUT |})
      (set_inputAudioContext (Some {| sampleRate := SAMPLE_RATE_INPUT |}) s) in
  connect SAMPLE_RATE_INPUT SAMPLE_RATE_OUTPUT None s =
    (tt, state_of (disconnect opened),
     [ OnStatusChange CONNECTING; NewAudioContext SAMPLE_RATE_INPUT;
       NewAudioContext SAMPLE_RATE_OUTPUT; GetUserMedia;
       ConsoleError "Failed to connect:"; OnStatusChange ERROR ]
       ++ trace_of (disconnect opened)).
Proof.
  intros opened. unfold connect. repeat (run; cbn). fold opened.
  destruct (disconnect opened) as [[[] s'] t']. reflexivity.
Qed.

Lemma connect_granted_run (SAMPLE_RATE_INPUT SAMPLE_RATE_OUTPUT : positive)
    (stream : MediaStream) (s : GeminiLiveService) :
  connect SAMPLE_RATE_INPUT SAMPLE_RATE_OUTPUT (Some stream) s =
    (tt,
     set_sessionPromise (Some ())
       (set_mediaStream (Some stream)
          (set_outputAudioContext (Some {| sampleRate := SAMPLE_RATE_OUTPUT |})
             (set_inputAudioContext (Some {| sampleRate := SAMPLE_RATE_INPUT |}) s))),
     [ OnStatusChange CONNECTING; NewAudioContext SAMPLE_RATE_INPUT;
       NewAudioContext SAMPLE_RATE_OUTPUT; GetUserMedia; LiveConnect ]).
Proof. unfold connect. repeat (run; cbn). reflexivity. Qed.

(** X1: [disconnect] can be called again, or on a service that never
    connected: a second call changes nothing and stops or closes nothing, it
    only disconnects the capture node again when there is one (the field is
    never cleared); on a new service it does nothing at all. *)
Theorem disconnect_twice (s : GeminiLiveService) :
  let s1 := state_of (disconnect s) in
  state_of (disconnect s1) = s1
  ∧ trace_of (disconnect s1) =
      match scriptProcessor s with
      | Some _ => [ProcessorDisconnect]
      | None => []
      end
  ∧ disconnect Service.new = (tt, Service.new, []).
Proof.
  cbv zeta. rewrite !disconnect_run. unfold state_of, trace_of. simpl.
  destruct (scriptProcessor s); done.
Qed.

(** X2: when the microphone is refused, [connect] calls the status
    callback with [CONNECTING] and then [ERROR] and with nothing else, never
    opens the session, closes the two contexts it has just created, and
    leaves the service without contexts, stream, session or active
    buffer. *)
Theorem connect_rejected (SAMPLE_RATE_INPUT SAMPLE_RATE_OUTPUT : positive)
    (s : GeminiLiveService) :
  let r := connect SAMPLE_RATE_INPUT SAMPLE_RATE_OUTPUT None s in
  statuses (trace_of r) = [CONNECTING; ERROR]
  ∧ (LiveConnect ∉ trace_of r)
  ∧ ContextClose {| sampleRate := SAMPLE_RATE_INPUT |} ∈ trace_of r
  ∧ ContextClose {| sampleRate := SAMPLE_RATE_OUTPUT |} ∈ trace_of r
  ∧ inputAudioContext (state_of r) = None
  ∧ outputAudioContext (state_of r) = None
  ∧ mediaStream (state_of r) = None
  ∧ sessionPromise (state_of r) = None
  ∧ sources (state_of r) = []
  ∧ nextStartTime (state_of r) = nextStartTime s.
Proof.
  cbv zeta. pose proof (connect_rejected_run SAMPLE_RATE_INPUT SAMPLE_RATE_OUTPUT s) as Hrun.
  cbv zeta in Hrun. rewrite Hrun. clear Hrun.
  match goal with
  | |- context [disconnect ?x] =>
      pose proof (disconnect_teardown x) as Htear;
      pose proof (disconnect_run x) as Hrun
  end.
  rewrite Hrun in *. clear Hrun.
  unfold state_of, trace_of in *. simpl in *.
  rewrite (teardown_silent _ Htear).
  split_and!; try done.
  - intros Hin.
    repeat (apply elem_of_cons in Hin as [Hin|Hin]; [discriminate|]).
    exact (proj1 (Forall_forall _ _) Htear _ Hin).
  - do 6 apply list_elem_of_further. rewrite !elem_of_app.
    right. right. right. apply list_elem_of_here.
  - do 6 apply list_elem_of_further. rewrite !elem_of_app.
    right. right. right. apply list_elem_of_further, list_elem_of_here.
Qed.

(** X3: when the microphone is granted, [connect] reports [CONNECTING]
    only and holds contexts, stream and session, but capture is not set up
    yet: the capture node is created, connected and given its handler by
    the [onopen] callback, which reports [CONNECTED]. *)
Theorem capture_starts_on_open (SAMPLE_RATE_INPUT SAMPLE_RATE_OUTPUT : positive)
    (stream : MediaStream) (s : GeminiLiveService) :
  let r := connect SAMPLE_RATE_INPUT SAMPLE_RATE_OUTPUT (Some stream) s in
  statuses (trace_of r) = [CONNECTING]
  ∧ scriptProcessor (state_of r) = scriptProcessor s
  ∧ inputAudioContext (state_of r) = Some {| sampleRate := SAMPLE_RATE_INPUT |}
  ∧ outputAudioContext (state_of r) = Some {| sampleRate := SAMPLE_RATE_OUTPUT |}
  ∧ mediaStream (state_of r) = Some stream
  ∧ sessionPromise (state_of r) = Some ()
  ∧ onopen (state_of r) =
      (tt,
       set_scriptProcessor (Some {| connected := true; onaudioprocess := true |})
         (state_of r),
       [OnStatusChange CONNECTED]).
Proof.
  cbv zeta. rewrite connect_granted_run. unfold state_of, trace_of. simpl.
  split_and!; done.
Qed.

(** X4: [disconnect] cannot close the session, so its [onopen] may still
    fire afterwards: the callback then reports [CONNECTED] although the
    service holds nothing, and sets up no capture. *)
Theorem open_after_disconnect (s : GeminiLiveService) :
  onopen (state_of (disconnect s)) =
    (tt, state_of (disconnect s), [OnStatusChange CONNECTED]).
Proof.
  rewrite disconnect_run. unfold state_of. simpl.
  unfold onopen, setupAudioInput. repeat (run; cbn). reflexivity.
Qed.

(** X5: from a status other than [CONNECTED] and [CONNECTING],
    [toggleConnection] clears the error and connects: with the microphone
    granted the status becomes [CONNECTING] and the service holds its
    resources; with the microphone refused the status becomes [ERROR] and
    the service holds none. The messages and the volume are kept. *)
Theorem toggle_connects_or_fails (SAMPLE_RATE_INPUT SAMPLE_RATE_OUTPUT : positive)
    (getUserMedia : option MediaStream) (app : App.App) :
  App.status app ≠ CONNECTED → App.status app ≠ CONNECTING →
  let r := App.toggleConnection SAMPLE_RATE_INPUT SAMPLE_RATE_OUTPUT
             getUserMedia app in
  App.status (fst r) = match getUserMedia with
                       | Some _ => CONNECTING
                       | None => ERROR
                       end
  ∧ App.error (fst r) = None
  ∧ App.messages (fst r) = App.messages app
  ∧ App.volume (fst r) = App.volume app
  ∧ mediaStream (App.liveService (fst r)) = getUserMedia
  ∧ sessionPromise (App.liveService (fst r)) = (λ _, ()) <$> getUserMedia
  ∧ outputAudioContext (App.liveService (fst r)) =
      (λ _, {| sampleRate := SAMPLE_RATE_OUTPUT |}) <$> getUserMedia.
Proof.
  intros Hc1 Hc2 r. subst r. unfold App.toggleConnection.
  rewrite bool_decide_eq_false_2, bool_decide_eq_false_2 by done. simpl.
  destruct getUserMedia as [stream|].
  - rewrite connect_granted_run. done.
  - pose proof (connect_rejected_run SAMPLE_RATE_INPUT SAMPLE_RATE_OUTPUT
                  (App.liveService app)) as Hrun.
    cbv zeta in Hrun. rewrite Hrun. clear Hrun.
    match goal with
    | |- context [disconnect ?x] =>
        pose proof (disconnect_teardown x) as Htear;
        pose proof (disconnect_run x) as Hrun
    end.
    rewrite Hrun in *. clear Hrun.
    unfold App.setStatuses, state_of, trace_of in *. simpl in *.
    rewrite (teardown_silent _ Htear). done.
Qed.

End Lifecycle.

(** * More on scheduling *)

Section Scheduling.
Import Wire Service Dispatcher Timeline.
Context (decodeAudioData : string → option AudioBuffer).

Lemma chunk_block_frame message now (s : GeminiLiveService) :
  let b := chunk_block decodeAudioData message now s in
  statuses b.2 = []
  ∧ inputAudioContext b.1 = inputAudioContext s
  ∧ outputAudioContext b.1 = outputAudioContext s
  ∧ scriptProcessor b.1 = scriptProcessor s
  ∧ mediaStream b.1 = mediaStream s
  ∧ sessionPromise b.1 = sessionPromise s.
Proof.
  unfold chunk_block.
  destruct (guarded message s) as [chunk|];
    [destruct (decodeAudioData chunk)|]; done.
Qed.

Lemma handleMessage_frame message now (s : GeminiLiveService) :
  let r := handleMessage decodeAudioData message now s in
  statuses (trace_of r) = []
  ∧ inputAudioContext (state_of r) = inputAudioContext s
  ∧ outputAudioContext (state_of r) = outputAudioContext s
  ∧ scriptProcessor (state_of r) = scriptProcessor s
  ∧ mediaStream (state_of r) = mediaStream s
  ∧ sessionPromise (state_of r) = sessionPromise s.
Proof.
  cbv zeta.
  pose proof (handleMessage_run decodeAudioData message now s) as Hrun.
  cbv zeta in Hrun.
  match type of Hrun with
  | context [chunk_block decodeAudioData message now ?x] =>
      pose proof (chunk_block_frame message now x) as Hframe;
      destruct (chunk_block decodeAudioData message now x) as [s2 t2]
  end.
  cbv zeta in Hframe. simpl in Hframe.
  destruct Hframe as (H0 & H1 & H2 & H3 & H4 & H5).
  rewrite Hrun. unfold state_of, trace_of. simpl.
  rewrite !statuses_app, H0.
  rewrite (proj2 (transcript_events_silent _ (transcript_events_delta message s))).
  rewrite (proj2 (transcript_events_silent _ (transcript_events_flush message s))).
  destruct (interrupts message); simpl; rewrite ?statuses_stops; done.
Qed.

(** X6: handling a message, whatever it carries and whether or not its
    chunk decodes, never calls the status callback and never touches the
    contexts, the capture node, the stream or the session handle. *)
Theorem handleMessage_keeps_session message now (s : GeminiLiveService) :
  let r := handleMessage decodeAudioData message now s in
  statuses (trace_of r) = []
  ∧ inputAudioContext (state_of r) = inputAudioContext s
  ∧ outputAudioContext (state_of r) = outputAudioContext s
  ∧ scriptProcessor (state_of r) = scriptProcessor s
  ∧ mediaStream (state_of r) = mediaStream s
  ∧ sessionPromise (state_of r) = sessionPromise s.
Proof. apply handleMessage_frame. Qed.

Lemma guarded_none message (s : GeminiLiveService) :
  outputAudioContext s = None
    ∨ (∀ chunk, get_base64Audio message = Normal (Some chunk) → chunk = "") →
  guarded message s = None.
Proof.
  unfold guarded, audio_guard. intros [-> | Hempty].
  - by destruct (get_base64Audio message) as [[chunk|]|].
  - destruct (get_base64Audio message) as [[chunk|]|]; [|done..].
    rewrite (Hempty chunk eq_refl). by destruct (outputAudioContext s).
Qed.

(** X7: a chunk is ignored without any diagnostic when the service has no
    output context (after [disconnect]), or when line 146 reads no chunk
    or an empty one, or throws: nothing is started, no error is logged,
    the volume callback is not called, and [nextStartTime] and the active
    set change only if the message carries an interruption and line 146
    has not thrown. *)
Theorem chunk_ignored message now (s : GeminiLiveService) :
  outputAudioContext s = None
    ∨ (∀ chunk, get_base64Audio message = Normal (Some chunk) → chunk = "") →
  let r := handleMessage decodeAudioData message now s in
  starts (trace_of r) = []
  ∧ Forall (λ e, transcript_event e ∨ ∃ source, e = SourceStop source) (trace_of r)
  ∧ created (state_of r) = created s
  ∧ nextStartTime (state_of r) =
      (if interrupts message then 0%Q else nextStartTime s)
  ∧ sources (state_of r) = (if interrupts message then [] else sources s)
  ∧ (get_base64Audio message = TypeError →
     nextStartTime (state_of r) = nextStartTime s
     ∧ sources (state_of r) = sources s)
  ∧ (get_base64Audio message ≠ TypeError →
     interrupts message = get_interrupted message).
Proof.
  intros Hguard r. subst r.
  pose proof (handleMessage_run decodeAudioData message now s) as Hrun.
  cbv zeta in Hrun. unfold chunk_block in Hrun.
  assert (Hnone : ∀ a b,
    guarded message
      (set_currentInputTranscription a (set_currentOutputTranscription b s)) = None).
  { intros a b. apply guarded_none.
    destruct Hguard as [H|H]; [left; exact H|right; exact H]. }
  rewrite Hnone in Hrun. rewrite Hrun. unfold state_of, trace_of. simpl.
  rewrite !starts_app.
  rewrite (proj1 (transcript_events_silent _ (transcript_events_delta message s))).
  rewrite (proj1 (transcript_events_silent _ (transcript_events_flush message s))).
  split_and!; try (destruct (interrupts message); simpl;
                   rewrite ?starts_stops; done).
  - repeat apply Forall_app_2.
    + eapply Forall_impl; [apply transcript_events_delta|]. intros e He. by left.
    + eapply Forall_impl; [apply transcript_events_flush|]. intros e He. by left.
    + destruct (interrupts message); [|constructor].
      apply Forall_fmap, Forall_true. intros source. right. by exists source.
  - intros Hthrown. unfold interrupts. by rewrite Hthrown.
  - intros Hread. unfold interrupts. by destruct (get_base64Audio message).
Qed.

(** X8: a message in which [handleMessage] finds none of the fields it
    reads (no content, or a content without delta, turn-complete, chunk in
    the first part or interruption) changes nothing and calls nothing,
    also when line 146 throws. *)
Theorem empty_message_ignored message now (s : GeminiLiveService) :
  get_outputTranscription message = None →
  get_inputTranscription message = None →
  get_turnComplete message = false →
  (∀ chunk, get_base64Audio message ≠ Normal (Some chunk)) →
  get_interrupted message = false →
  handleMessage decodeAudioData message now s = (tt, s, []).
Proof.
  intros Hout Hin Htc Hchunk Hint.
  rewrite handleMessage_dispatch. unfold applied, guarded, interrupts, audio_guard.
  rewrite Hout, Hin, Htc, Hint.
  destruct (get_base64Audio message) as [[chunk|]|]; [|done..].
  by destruct (Hchunk chunk).
Qed.

(** *** Slices *)

Lemma chained_le from from' started :
  (from' <= from)%Q → chained from started → chained from' started.
Proof.
  destruct started as [|[[source b] w] rest]; [done|].
  intros Hle [Hw Hrest]. split; [|done]. by eapply Qle_trans.
Qed.

Lemma timeline_end_le from from' started :
  (from' <= from)%Q → (timeline_end from' started <= timeline_end from started)%Q.
Proof.
  destruct started as [|[[source b] w] rest]; [done|].
  intros _. apply Qle_refl.
Qed.

Lemma timeline_end_app from l1 l2 :
  timeline_end from (l1 ++ l2) = timeline_end (timeline_end from l1) l2.
Proof.
  revert from. induction l1 as [|[[source b] w] l1 IH]; intros from; [done|].
  simpl. apply IH.
Qed.

Lemma chained_app from l1 l2 :
  chained from l1 → chained (timeline_end from l1) l2 → chained from (l1 ++ l2).
Proof.
  revert from. induction l1 as [|[[source b] w] l1 IH]; intros from; [done|].
  simpl. intros [Hw Hl1] Hl2. split; [done|]. by apply IH.
Qed.

Lemma handleMessage_slice message now (s : GeminiLiveService) :
  get_interrupted message = false →
  let r := handleMessage decodeAudioData message now s in
  chained (nextStartTime s) (starts (trace_of r))
  ∧ (timeline_end (nextStartTime s) (starts (trace_of r))
       <= nextStartTime (state_of r))%Q.
Proof.
  intros Hint r. subst r.
  pose proof (handleMessage_run decodeAudioData message now s) as Hrun.
  cbv zeta in Hrun. unfold chunk_block in Hrun.
  rewrite (interrupts_false _ Hint) in Hrun.
  destruct (guarded message _) as [chunk|];
    [destruct (decodeAudioData chunk) as [audioBuffer|]|];
    rewrite Hrun; unfold state_of, trace_of; simpl;
    rewrite !starts_app;
    rewrite (proj1 (transcript_events_silent _ (transcript_events_delta message s)));
    rewrite (proj1 (transcript_events_silent _ (transcript_events_flush message s)));
    simpl.
  - split; [|apply Qle_refl]. split; [apply Q.le_max_l|done].
  - split; [done|apply Q.le_max_l].
  - split; [done|apply Qle_refl].
Qed.

(** X9: along any sequence of messages without interruption, the buffers
    started never overlap: each one starts no earlier than the end of the
    one started before it (its start plus its duration), the first one no
    earlier than the [nextStartTime] the sequence began with, and
    [nextStartTime] ends no earlier than the end of the last one. *)
Theorem slices_do_not_overlap inbound (s : GeminiLiveService) :
  Forall (λ arrival, get_interrupted arrival.1 = false) inbound →
  let r := handleMessages decodeAudioData inbound s in
  chained (nextStartTime s) (starts (trace_of r))
  ∧ (timeline_end (nextStartTime s) (starts (trace_of r))
       <= nextStartTime (state_of r))%Q.
Proof.
  intros Hquiet. revert s.
  induction Hquiet as [|[message now] inbound Hint _ IH]; intros s; cbv zeta.
  - destruct (handleMessages_nil decodeAudioData s) as [-> ->].
    split; [done|apply Qle_refl].
  - destruct (handleMessages_cons decodeAudioData message now inbound s) as [-> ->].
    destruct (handleMessage_slice message now s Hint) as [Hfirst Hend].
    specialize (IH (state_of (handleMessage decodeAudioData message now s))).
    cbv zeta in IH. destruct IH as [Hrest Hlast].
    rewrite starts_app, timeline_end_app. split.
    + apply chained_app; [done|]. by eapply chained_le.
    + eapply Qle_trans; [|exact Hlast]. by apply timeline_end_le.
Qed.




(** X13: a chunk whose decode completes after [disconnect] is dropped: the
    second half of [handleMessage] logs the decode error, starts nothing
    and tracks nothing. *)
Theorem decode_after_disconnect message decoded (s : GeminiLiveService) :
  let r := handleMessage_after_await message decoded (state_of (disconnect s)) in
  trace_of r = [ConsoleError "Audio decode error:"]
  ∧ sources (state_of r) = []
  ∧ created (state_of r) = created s
  ∧ outputAudioContext (state_of r) = None.
Proof.
  cbv zeta.
  pose proof (after_await_run message decoded (state_of (disconnect s))) as Hrun.
  rewrite disconnect_run in *. unfold state_of at 1 2 in Hrun. simpl in Hrun.
  destruct decoded; rewrite Hrun; unfold state_of, trace_of; simpl;
    destruct (get_interrupted message); done.
Qed.


(** X15: [disconnect] and [connect] leave the two transcript buffers as
    they are: the first delta of a speaker after a reconnection is reported
    with the text that was still open before the disconnection in front of
    it. *)
Theorem stale_transcript_after_reconnect
    (SAMPLE_RATE_INPUT SAMPLE_RATE_OUTPUT : positive) stream isUser d now
    (s : GeminiLiveService) :
  let s' := state_of (connect SAMPLE_RATE_INPUT SAMPLE_RATE_OUTPUT (Some stream)
                        (state_of (disconnect s))) in
  transcription_of isUser s' = transcription_of isUser s
  ∧ transcripts isUser
      (trace_of (handleMessage decodeAudioData (delta_message isUser d) now s')) =
      [(transcription_of isUser s +:+ d, false)].
Proof.
  intros s'.
  assert (Hkept : transcription_of isUser s' = transcription_of isUser s).
  { subst s'. rewrite connect_granted_run, disconnect_run. by destruct isUser. }
  split; [done|].
  destruct (delta_message_view decodeAudioData isUser d now s') as [-> _].
  by rewrite Hkept.
Qed.

End Scheduling.

(** * When buffers end *)

Section Ending.
Import Wire Service.

Lemma state_of_run {A} (a : A) (s : GeminiLiveService) (t : list Effect) :
  state_of (a, s, t) = s.
Proof. reflexivity. Qed.

Lemma trace_of_run {A} (a : A) (s : GeminiLiveService) (t : list Effect) :
  trace_of (a, s, t) = t.
Proof. reflexivity. Qed.

Lemma onended_run source (s : GeminiLiveService) :
  onended source s =
    (tt, set_sources (Set_delete source (sources s)) s,
     if decide (length (Set_delete source (sources s)) = 0%nat)
     then [OnVolumeChange 0%Q] else []).
Proof.
  unfold onended. repeat (run; cbn).
  destruct (decide (length (Set_delete source (sources s)) = 0%nat)); reflexivity.
Qed.

(** X16: when the buffers of the active set end, in whatever order, the
    volume callback is called with 0 exactly once, at the end of the last
    one, and the set is empty. *)
Theorem volume_falls_when_last_ends (ended : list nat) (s : GeminiLiveService) :
  NoDup ended → ended ≠ [] → (∀ x, x ∈ sources s ↔ x ∈ ended) →
  let r := for_of ended onended s in
  sources (state_of r) = [] ∧ trace_of r = [OnVolumeChange 0%Q].
Proof.
  intros Hnodup Hne. revert s.
  induction ended as [|x ended IH]; [done|]. intros s Hsame. cbv zeta.
  destruct (for_of_cons x ended onended s) as [-> ->].
  rewrite onended_run, !state_of_run, !trace_of_run.
  apply NoDup_cons in Hnodup as [Hx Hnodup].
  assert (Hrest : ∀ y, y ∈ Set_delete x (sources s) ↔ y ∈ ended).
  { intros y. unfold Set_delete. rewrite list_elem_of_filter, Hsame, elem_of_cons.
    split; [intros [Hyx [?|?]]; done|].
    intros Hy. split; [|by right]. intros ->. done. }
  destruct ended as [|y ended].
  - assert (Hempty : Set_delete x (sources s) = []).
    { destruct (Set_delete x (sources s)) as [|z zs]; [done|].
      pose proof (proj1 (Hrest z) (list_elem_of_here _ _)) as Hz. inversion Hz. }
    rewrite Hempty. done.
  - assert (Hsome : length (Set_delete x (sources s)) ≠ 0%nat).
    { intros Hlen. apply length_zero_iff_nil in Hlen.
      pose proof (proj2 (Hrest y) (list_elem_of_here _ _)) as Hy.
      rewrite Hlen in Hy. inversion Hy. }
    rewrite decide_False by done. simpl.
    apply (IH Hnodup ltac:(done)
             (set_sources (Set_delete x (sources s)) s)).
    exact Hrest.
Qed.

End Ending.

(** * From the service to the visible messages *)

Section Shown.
Import Wire Service Dispatcher App Wiring.
Context (decodeAudioData : string → option AudioBuffer).

(** X17: one call of [handleTranscript] adds at most one message and
    removes none; it leaves every message but the last as it is, and of
    the last one it can change the text and the final flag only. *)
Theorem handleTranscript_append_only newId date txt isUser final
    (prev : list ChatMessage) :
  let next := handleTranscript newId date txt isUser final prev in
  (length prev ≤ length next ≤ S (length prev))%nat
  ∧ (∀ i m, (S i < length prev)%nat → prev !! i = Some m → next !! i = Some m)
  ∧ (∀ i m, prev !! i = Some m →
       ∃ m', next !! i = Some m' ∧ id m' = id m ∧ role m' = role m
             ∧ timestamp m' = timestamp m).
Proof.
  cbv zeta. destruct prev as [|x older _] using rev_ind.
  - rewrite handleTranscript_nil. simpl. split_and!; [lia|lia| |]; intros; done.
  - rewrite handleTranscript_snoc.
    destruct (bool_decide _ && negb _); rewrite !length_app; simpl.
    + split_and!; [lia|lia| |].
      * intros i m Hi Hm. rewrite lookup_app_l in Hm by lia.
        by rewrite lookup_app_l by lia.
      * intros i m Hm.
        destruct (decide (i < length older)%nat) as [Hlt|Hge].
        -- rewrite lookup_app_l in Hm by lia. exists m.
           by rewrite lookup_app_l by lia.
        -- pose proof (lookup_lt_Some _ _ _ Hm) as Hlen.
           rewrite length_app in Hlen. simpl in Hlen.
           rewrite list_lookup_middle in Hm by lia. injection Hm as <-.
           eexists. rewrite list_lookup_middle by lia. done.
    + split_and!; [lia|lia| |].
      * intros i m Hi Hm. rewrite lookup_app_l in Hm by lia.
        by rewrite lookup_app_l by lia.
      * intros i m Hm. exists m. split; [|done].
        change (older ++ [x; ?n]) with (older ++ [x] ++ [n]).
        rewrite app_assoc. by apply lookup_app_l_Some.
Qed.

Lemma deliver_nonfinal_app stamp k isUser texts tr msgs :
  deliver stamp k (((λ t, OnTranscript t isUser false) <$> texts) ++ tr) msgs =
    deliver stamp (k + length texts) tr
      (deliver stamp k ((λ t, OnTranscript t isUser false) <$> texts) msgs).
Proof.
  revert k msgs. induction texts as [|t texts IH]; intros k msgs.
  - simpl. by rewrite Nat.add_0_r.
  - csimpl. rewrite IH. f_equal. lia.
Qed.

Lemma deliver_updates stamp k isUser texts older m :
  role m = role_of isUser → isFinal m = false →
  deliver stamp k ((λ t, OnTranscript t isUser false) <$> texts) (older ++ [m]) =
    older ++ [retext m (default (text m) (last texts)) false].
Proof.
  revert k m. induction texts as [|t texts IH]; intros k m Hrole Hfinal.
  - simpl. destruct m. simpl in *. by subst.
  - csimpl. rewrite handleTranscript_snoc.
    fold (role_of isUser). rewrite Hrole, Hfinal, bool_decide_eq_true_2 by done.
    simpl. fold (retext m t false). rewrite IH by done.
    assert (Hl : default t (last texts) = default (text m) (last (t :: texts))).
    { destruct texts as [|t' texts]; [done|].
      change (last (t :: t' :: texts)) with (last (t' :: texts)).
      destruct (last (t' :: texts)) eqn:Hlast; [done|].
      apply last_None in Hlast. discriminate. }
    unfold retext. simpl. by rewrite Hl, Hrole.
Qed.

Lemma deliver_opens stamp k isUser t texts older :
  (∀ m, last older = Some m → role m ≠ role_of isUser ∨ isFinal m = true) →
  deliver stamp k ((λ t, OnTranscript t isUser false) <$> t :: texts) older =
    older ++ [ {| id := (stamp k).1; role := role_of isUser;
                  text := default t (last texts);
                  timestamp := (stamp k).2; isFinal := false |} ].
Proof.
  intros Hlast. csimpl.
  assert (Hnew : handleTranscript (stamp k).1 (stamp k).2 t isUser false older =
    older ++ [ {| id := (stamp k).1; role := role_of isUser; text := t;
                  timestamp := (stamp k).2; isFinal := false |} ]).
  { destruct older as [|x older _] using rev_ind; [done|].
    rewrite handleTranscript_snoc. fold (role_of isUser).
    rewrite last_snoc in Hlast. destruct (Hlast x eq_refl) as [Hr|Hf].
    - rewrite bool_decide_eq_false_2 by done. simpl. by rewrite <- app_assoc.
    - rewrite Hf, andb_false_r. by rewrite <- app_assoc. }
  rewrite Hnew, deliver_updates by done. done.
Qed.

Lemma delta_message_run isUser d now (s : GeminiLiveService) :
  handleMessage decodeAudioData (delta_message isUser d) now s =
    (tt, set_transcription_of isUser (transcription_of isUser s +:+ d) s,
     [OnTranscript (transcription_of isUser s +:+ d) isUser false]).
Proof.
  rewrite handleMessage_dispatch.
  destruct isUser, s; unfold dispatch, applied, audio_guard; cbn;
    unfold on_delta; repeat (run; cbn); reflexivity.
Qed.

Lemma deltas_run isUser (deltas : list (string * Q)) (s : GeminiLiveService) :
  let r := handleMessages decodeAudioData
             ((λ d, (delta_message isUser d.1, d.2)) <$> deltas) s in
  trace_of r =
    (λ t, OnTranscript t isUser false)
      <$> accumulations (transcription_of isUser s) deltas.*1
  ∧ transcription_of isUser (state_of r) =
      transcription_of isUser s +:+ joined deltas.*1
  ∧ transcription_of (negb isUser) (state_of r) = transcription_of (negb isUser) s.
Proof.
  revert s. induction deltas as [|[d at_] deltas IH]; intros s; cbv zeta.
  - split_and!; [done| |done].
    change (joined ([] : list (string * Q)).*1) with "". by rewrite append_nil_r.
  - rewrite fmap_cons. simpl fst. simpl snd.
    destruct (handleMessages_cons decodeAudioData (delta_message isUser d) at_
                ((λ d, (delta_message isUser d.1, d.2)) <$> deltas) s) as [-> ->].
    rewrite delta_message_run, !state_of_run, !trace_of_run.
    specialize (IH (set_transcription_of isUser (transcription_of isUser s +:+ d) s)).
    cbv zeta in IH. destruct IH as (-> & -> & ->).
    change (joined ((d, at_) :: deltas).*1) with (d +:+ joined deltas.*1).
    assert (Hown : transcription_of isUser
              (set_transcription_of isUser (transcription_of isUser s +:+ d) s)
            = transcription_of isUser s +:+ d) by (by destruct isUser).
    assert (Hother : transcription_of (negb isUser)
              (set_transcription_of isUser (transcription_of isUser s +:+ d) s)
            = transcription_of (negb isUser) s) by (by destruct isUser).
    rewrite Hown, Hother, append_assoc. done.
Qed.

Lemma turn_complete_run now (s : GeminiLiveService) :
  trace_of (handleMessage decodeAudioData turn_complete_message now s) =
    (if truthy (currentInputTranscription s)
     then [OnTranscript (currentInputTranscription s) true true] else [])
    ++ (if truthy (currentOutputTranscription s)
        then [OnTranscript (currentOutputTranscription s) false true] else []).
Proof.
  pose proof (handleMessage_run decodeAudioData turn_complete_message now s) as Hrun.
  cbv zeta in Hrun. unfold chunk_block in Hrun. simpl in Hrun.
  rewrite Hrun. unfold trace_of. simpl. by rewrite app_nil_r.
Qed.

Lemma deliver_deltas stamp k isUser texts older :
  texts ≠ [] →
  (∀ m, last older = Some m → role m ≠ role_of isUser ∨ isFinal m = true) →
  deliver stamp k ((λ t, OnTranscript t isUser false) <$> accumulations "" texts)
      older =
    older ++ [ {| id := (stamp k).1; role := role_of isUser; text := joined texts;
                  timestamp := (stamp k).2; isFinal := false |} ].
Proof.
  intros Hne Holder. destruct texts as [|d ds]; [done|].
  pose proof (proj2 (successive_accumulations "" (d :: ds))) as Hlast.
  change ("" +:+ joined (d :: ds)) with (joined (d :: ds)) in Hlast.
  set (J := joined (d :: ds)) in *. clearbody J.
  simpl accumulations in *.
  rewrite (deliver_opens stamp k isUser ("" +:+ d)
             (accumulations ("" +:+ d) ds) older) by done.
  destruct (accumulations ("" +:+ d) ds) as [|t ts] eqn:Hacc.
  - simpl in Hlast. simpl last. simpl default. by rewrite Hlast.
  - change (last (("" +:+ d) :: t :: ts)) with (last (t :: ts)) in Hlast.
    destruct (last (t :: ts)) eqn:Hl.
    + simpl in Hlast. simpl default. by rewrite Hlast.
    + apply last_None in Hl. discriminate.
Qed.

(** X18: the deltas of one speaker followed by turn-complete, delivered to
    [handleTranscript] from an empty list while the other speaker has no
    text open, show as a single message: created at the first delta,
    updated in place at each of the others, it holds the concatenation of
    the deltas and is final if that text is not empty. *)
Theorem turn_shown_as_one_message stamp isUser (deltas : list (string * Q)) now
    (s : GeminiLiveService) :
  deltas ≠ [] →
  currentInputTranscription s = "" → currentOutputTranscription s = "" →
  deliver stamp 0
    (trace_of (handleMessages decodeAudioData (one_turn isUser deltas now) s)) [] =
    [ {| id := (stamp 0%nat).1; role := role_of isUser;
         text := joined deltas.*1; timestamp := (stamp 0%nat).2;
         isFinal := truthy (joined deltas.*1) |} ].
Proof.
  intros Hne Hin Hout. unfold one_turn.
  destruct (handleMessages_app decodeAudioData
              ((λ d, (delta_message isUser d.1, d.2)) <$> deltas)
              [(turn_complete_message, now)] s) as [_ ->].
  destruct (deltas_run isUser deltas s) as (-> & Hown & Hother).
  match goal with
  | |- context [handleMessages decodeAudioData [(turn_complete_message, now)] ?x] =>
      destruct (handleMessages_cons decodeAudioData turn_complete_message now [] x)
        as [_ ->];
      destruct (handleMessages_nil decodeAudioData
                  (state_of (handleMessage decodeAudioData turn_complete_message now x)))
        as [_ ->];
      rewrite (turn_complete_run now x)
  end.
  rewrite app_nil_r.
  assert (Hopened : transcription_of isUser s = "") by (by destruct isUser).
  assert (Hquiet : transcription_of (negb isUser) s = "") by (by destruct isUser).
  rewrite Hopened in *. rewrite Hquiet in Hother.
  change ("" +:+ joined deltas.*1) with (joined deltas.*1) in Hown.
  rewrite deliver_nonfinal_app.
  destruct (deltas.*1) as [|d ds] eqn:Hds.
  { destruct deltas; [done|discriminate]. }
  simpl accumulations.
  rewrite (deliver_opens stamp 0 isUser ("" +:+ d)
             (accumulations ("" +:+ d) ds) []) by (intros m; discriminate).
  assert (Hlast : default ("" +:+ d) (last (accumulations ("" +:+ d) ds))
                  = joined (d :: ds)).
  { pose proof (proj2 (successive_accumulations "" (d :: ds))) as H.
    simpl accumulations in H.
    destruct (accumulations ("" +:+ d) ds) as [|t ts] eqn:Hacc; [exact H|].
    change (last (("" +:+ d) :: t :: ts)) with (last (t :: ts)) in H.
    destruct (last (t :: ts)) eqn:Hl; [exact H|].
    apply last_None in Hl. discriminate. }
  set (J := joined (d :: ds)) in *. clearbody J.
  rewrite Hlast. clear Hlast.
  destruct isUser; simpl in Hown, Hother; rewrite Hown, Hother;
    destruct (truthy J) eqn:Htruthy; reflexivity.
Qed.

(** X19: a turn in which both speakers have text shows every text twice.
    The user's deltas, then the model's deltas, then turn-complete,
    delivered to [handleTranscript] from an empty list, leave four
    messages: the two that grew with the deltas, still not final, and a
    final copy of each appended by the flush, because [handleTranscript]
    only looks at the last message of the list. *)
Theorem both_speakers_shown_twice stamp (spoken answered : list (string * Q)) now
    (s : GeminiLiveService) :
  currentInputTranscription s = "" → currentOutputTranscription s = "" →
  truthy (joined spoken.*1) = true → truthy (joined answered.*1) = true →
  shown <$> deliver stamp 0
    (trace_of (handleMessages decodeAudioData
       (((λ d, (delta_message true d.1, d.2)) <$> spoken)
        ++ one_turn false answered now) s)) [] =
    [ (user, joined spoken.*1, false); (model, joined answered.*1, false);
      (user, joined spoken.*1, true); (model, joined answered.*1, true) ].
Proof.
  intros Hin Hout Hu Hm.
  assert (Hune : spoken.*1 ≠ []) by (intros E; rewrite E in Hu; discriminate).
  assert (Hmne : answered.*1 ≠ []) by (intros E; rewrite E in Hm; discriminate).
  unfold one_turn.
  destruct (handleMessages_app decodeAudioData
              ((λ d, (delta_message true d.1, d.2)) <$> spoken)
              (((λ d, (delta_message false d.1, d.2)) <$> answered)
               ++ [(turn_complete_message, now)]) s) as [_ ->].
  destruct (deltas_run true spoken s) as (-> & Hu1 & Hu2).
  set (s1 := state_of (handleMessages decodeAudioData
                         ((λ d, (delta_message true d.1, d.2)) <$> spoken) s)) in *.
  destruct (handleMessages_app decodeAudioData
              ((λ d, (delta_message false d.1, d.2)) <$> answered)
              [(turn_complete_message, now)] s1) as [_ ->].
  destruct (deltas_run false answered s1) as (-> & Hm1 & Hm2).
  set (s2 := state_of (handleMessages decodeAudioData
                         ((λ d, (delta_message false d.1, d.2)) <$> answered) s1)) in *.
  destruct (handleMessages_cons decodeAudioData turn_complete_message now [] s2)
    as [_ ->].
  destruct (handleMessages_nil decodeAudioData
              (state_of (handleMessage decodeAudioData turn_complete_message now s2)))
    as [_ ->].
  rewrite (turn_complete_run now s2), app_nil_r.
  unfold transcription_of, negb in *.
  rewrite Hin in *. rewrite Hout in *. rewrite Hu2 in *.
  change ("" +:+ joined spoken.*1) with (joined spoken.*1) in *.
  change ("" +:+ joined answered.*1) with (joined answered.*1) in *.
  rewrite Hm1, Hm2, Hu1, Hu, Hm.
  rewrite !deliver_nonfinal_app.
  rewrite (deliver_deltas stamp 0 true) by (done || intros m; discriminate).
  rewrite (deliver_deltas stamp _ false)
    by (done || (intros m [= <-]; left; discriminate)).
  reflexivity.
Qed.

End Shown.

(** * The bars of the visualizer *)

Section Bars.
Import Visualizer.

Lemma targetHeight_floor canvasHeight volume :
  (5 <= targetHeight canvasHeight volume)%Q.
Proof. unfold targetHeight, Math_max. apply Q.le_max_l. Qed.

Lemma targetHeight_ceiling canvasHeight volume :
  (0 <= volume <= 1)%Q → (25 <= canvasHeight)%Q →
  (targetHeight canvasHeight volume <= canvasHeight * (8 # 10))%Q.
Proof.
  intros Hv Hh. unfold targetHeight, Math_max.
  apply Q.max_lub; [lra|]. nra.
Qed.

Lemma currentHeight_floor canvasHeight volume i :
  (5 <= currentHeight canvasHeight volume i)%Q.
Proof. unfold currentHeight, Math_max. cbv zeta. apply Q.le_max_l. Qed.

Lemma offset_nonneg i : (0 <= inject_Z (Z.abs (i - middle)))%Q.
Proof.
  change 0%Q with (inject_Z 0). rewrite <- Zle_Qle. apply Z.abs_nonneg.
Qed.

Lemma currentHeight_ceiling canvasHeight volume i :
  (currentHeight canvasHeight volume i <= targetHeight canvasHeight volume)%Q.
Proof.
  pose proof (targetHeight_floor canvasHeight volume) as Ht.
  pose proof (offset_nonneg i) as Ho.
  unfold currentHeight, Math_max. cbv zeta.
  apply Q.max_lub; [exact Ht|]. nra.
Qed.

(** X20: on a canvas at least 88 wide and 25 high (the component's is 200
    by 100), with a volume between 0 and 1 and a jitter drawn in [0, 1),
    each of the five bars lies inside the canvas and is at least 5 high. *)
Theorem bars_inside_canvas canvasWidth canvasHeight volume isPlaying random i :
  (0 <= volume <= 1)%Q → (0 <= random < 1)%Q →
  (88 <= canvasWidth)%Q → (25 <= canvasHeight)%Q →
  (0 <= i < barCount)%Z →
  let r := bar canvasWidth canvasHeight volume isPlaying random i in
  (0 <= left r)%Q ∧ (left r + width r <= canvasWidth)%Q
  ∧ (0 <= top r)%Q ∧ (top r + height r <= canvasHeight)%Q
  ∧ (5 <= height r)%Q.
Proof.
  intros Hv Hr Hw Hh Hi r.
  pose proof (currentHeight_floor canvasHeight volume i) as Hlo.
  pose proof (currentHeight_ceiling canvasHeight volume i) as Hhi.
  pose proof (targetHeight_ceiling canvasHeight volume Hv Hh) as Hhi'.
  assert (Hjitter : (0 <= (if isPlaying then random * 5 else 0) < 5)%Q).
  { destruct isPlaying; lra. }
  assert (Hx : (-2 <= inject_Z (i - middle) <= 2)%Q).
  { change (-2)%Q with (inject_Z (-2)). change 2%Q with (inject_Z 2).
    rewrite <- !Zle_Qle. unfold middle, barCount in *.
    change (5 / 2)%Z with 2%Z. lia. }
  subst r. unfold bar, finalHeight, barWidth, spacing. cbv zeta. simpl.
  set (h := currentHeight canvasHeight volume i) in *.
  set (t := targetHeight canvasHeight volume) in *.
  set (j := if isPlaying then (random * 5)%Q else 0%Q) in *.
  set (x := inject_Z (i - middle)) in *.
  clearbody h t j x. destruct Hjitter, Hx.
  unfold Qdiv. change (/ 2)%Q with (1 # 2)%Q.
  split_and!; lra.
Qed.

(** X21: the wave falls off from the middle: a bar that is not nearer to
    the middle bar than another is not taller than it, before jitter. So
    the middle bar is the tallest and bars at the same distance on both
    sides have the same height. *)
Theorem bars_fall_off_from_the_middle canvasHeight volume i j :
  (Z.abs (i - middle) <= Z.abs (j - middle))%Z →
  (currentHeight canvasHeight volume j <= currentHeight canvasHeight volume i)%Q.
Proof.
  intros Hij. rewrite Zle_Qle in Hij.
  pose proof (targetHeight_floor canvasHeight volume) as Ht.
  pose proof (offset_nonneg i) as Hi.
  unfold currentHeight, Math_max. cbv zeta.
  set (t := targetHeight canvasHeight volume) in *.
  set (oi := inject_Z (Z.abs (i - middle))) in *.
  set (oj := inject_Z (Z.abs (j - middle))) in *.
  clearbody t oi oj. apply Q.max_lub.
  - apply Q.le_max_l.
  - apply Qle_trans with (t - oi * (t * (3 # 10)))%Q; [nra|apply Q.le_max_r].
Qed.

(** X22: while the scaled volume does not exceed 5 (a volume of 0 in
    particular), every bar is exactly 5 high when not playing, and between
    5 and 10 with the jitter of a playing session. *)
Theorem quiet_bars_rest canvasWidth canvasHeight volume isPlaying random i :
  (volume * (canvasHeight * (8 # 10)) <= 5)%Q → (0 <= random < 1)%Q →
  let r := bar canvasWidth canvasHeight volume isPlaying random i in
  (5 <= height r < 10)%Q ∧ (isPlaying = false → (height r == 5)%Q).
Proof.
  intros Hquiet Hr r.
  pose proof (currentHeight_floor canvasHeight volume i) as Hlo.
  pose proof (currentHeight_ceiling canvasHeight volume i) as Hhi.
  assert (Ht : (targetHeight canvasHeight volume <= 5)%Q).
  { unfold targetHeight, Math_max. apply Q.max_lub; [lra|exact Hquiet]. }
  subst r. unfold bar, finalHeight. cbv zeta. simpl.
  set (h := currentHeight canvasHeight volume i) in *.
  set (t := targetHeight canvasHeight volume) in *.
  clearbody h t. destruct Hr. split.
  - destruct isPlaying; lra.
  - intros ->. lra.
Qed.

End Bars.

(** * The further properties on concrete runs *)

Section Scenarios.
Import Wire Service Dispatcher Timeline.

(** X5 on the component as it is mounted, with the microphone granted. *)
Lemma toggle_connects_or_fails_initial :
  let r := App.toggleConnection 16000 24000 (Some Sample.microphone) App.initial in
  App.status (fst r) = CONNECTING
  ∧ App.error (fst r) = None
  ∧ App.messages (fst r) = App.messages App.initial
  ∧ App.volume (fst r) = App.volume App.initial
  ∧ mediaStream (App.liveService (fst r)) = Some Sample.microphone
  ∧ sessionPromise (App.liveService (fst r)) = Some ()
  ∧ outputAudioContext (App.liveService (fst r)) = Some {| sampleRate := 24000 |}.
Proof.
  apply (toggle_connects_or_fails 16000 24000 (Some Sample.microphone) App.initial);
    discriminate.
Defined.

(** X7 on a chunk that arrives after [disconnect]. *)
Lemma chunk_ignored_after_disconnect :
  let s := state_of (disconnect Sample.speaking) in
  let r := handleMessage Sample.decoder (audio_message "AAAA") 2%Q s in
  starts (trace_of r) = []
  ∧ Forall (λ e, transcript_event e ∨ ∃ source, e = SourceStop source) (trace_of r)
  ∧ created (state_of r) = created s
  ∧ nextStartTime (state_of r) = nextStartTime s
  ∧ sources (state_of r) = sources s.
Proof.
  pose proof (chunk_ignored Sample.decoder (audio_message "AAAA") 2%Q
                (state_of (disconnect Sample.speaking)) (or_introl eq_refl)) as H.
  cbv zeta in H. destruct H as (H1 & H2 & H3 & H4 & H5 & _).
  cbv zeta. split_and!; [exact H1|exact H2|exact H3|exact H4|exact H5].
Defined.

(** X8 on a message without server content. *)
Lemma empty_message_ignored_no_content :
  handleMessage Sample.decoder {| serverContent := None |} 2%Q Sample.speaking =
    (tt, Sample.speaking, []).
Proof.
  apply (empty_message_ignored Sample.decoder {| serverContent := None |} 2%Q
           Sample.speaking); try reflexivity.
  intros chunk. discriminate.
Defined.

(** X9 on two chunks, the second arriving half a second after the first. *)
Lemma slices_do_not_overlap_two_chunks :
  let r := handleMessages Sample.decoder
             [(audio_message "AAAA", 0%Q); (audio_message "AA", (1 # 2)%Q)]
             Sample.listening in
  chained (nextStartTime Sample.listening) (starts (trace_of r))
  ∧ (timeline_end (nextStartTime Sample.listening) (starts (trace_of r))
       <= nextStartTime (state_of r))%Q.
Proof.
  apply (slices_do_not_overlap Sample.decoder
           [(audio_message "AAAA", 0%Q); (audio_message "AA", (1 # 2)%Q)]
           Sample.listening).
  repeat constructor.
Defined.





(** X16 on the two active buffers of the sample, the later one ending
    first. *)
Lemma volume_falls_when_last_ends_speaking :
  let r := for_of [1%nat; 0%nat] onended Sample.speaking in
  sources (state_of r) = [] ∧ trace_of r = [OnVolumeChange 0%Q].
Proof.
  apply (volume_falls_when_last_ends [1%nat; 0%nat] Sample.speaking).
  - apply (bool_decide_unpack _). reflexivity.
  - discriminate.
  - intros x. simpl. rewrite !elem_of_cons, !elem_of_nil. tauto.
Defined.

(** X18 on the deltas "Hel", "lo" of the Model. *)
Lemma turn_shown_as_one_message_hello :
  Wiring.deliver (λ k, ("m", k)) 0
    (trace_of (handleMessages Sample.decoder
                 (one_turn false [("Hel", 0%Q); ("lo", 0%Q)] 1%Q) Service.new)) [] =
    [ {| App.id := "m"; App.role := App.model; App.text := "Hello";
         App.timestamp := 0; App.isFinal := true |} ].
Proof.
  apply (turn_shown_as_one_message Sample.decoder (λ k, ("m", k)) false
           [("Hel", 0%Q); ("lo", 0%Q)] 1%Q Service.new);
    [discriminate|reflexivity|reflexivity].
Defined.

(** X19 on "Hi" of the User answered by "Hel", "lo" of the Model. *)
Lemma both_speakers_shown_twice_hi_hello :
  Wiring.shown <$> Wiring.deliver (λ k, ("m", k)) 0
    (trace_of (handleMessages Sample.decoder
       (((λ d, (delta_message true d.1, d.2)) <$> [("Hi", 0%Q)])
        ++ one_turn false [("Hel", 0%Q); ("lo", 0%Q)] 1%Q) Service.new)) [] =
    [ (App.user, "Hi", false); (App.model, "Hello", false);
      (App.user, "Hi", true); (App.model, "Hello", true) ].
Proof.
  apply (both_speakers_shown_twice Sample.decoder (λ k, ("m", k))
           [("Hi", 0%Q)] [("Hel", 0%Q); ("lo", 0%Q)] 1%Q Service.new);
    reflexivity.
Defined.

(** X20 on the canvas of the component, 200 by 100, at half volume. *)
Lemma bars_inside_canvas_component :
  let r := Visualizer.bar 200 100 (1 # 2) true (1 # 2) 0 in
  (0 <= Visualizer.left r)%Q
  ∧ (Visualizer.left r + Visualizer.width r <= 200)%Q
  ∧ (0 <= Visualizer.top r)%Q
  ∧ (Visualizer.top r + Visualizer.height r <= 100)%Q
  ∧ (5 <= Visualizer.height r)%Q.
Proof.
  apply (bars_inside_canvas 200 100 (1 # 2) true (1 # 2) 0);
    try (split; discriminate || reflexivity); discriminate.
Defined.

(** X21 between the middle bar and the leftmost one. *)
Lemma bars_fall_off_from_the_middle_leftmost :
  (Visualizer.currentHeight 100 1 0 <= Visualizer.currentHeight 100 1 2)%Q.
Proof.
  apply (bars_fall_off_from_the_middle 100 1 2 0). discriminate.
Defined.

(** X22 on the component when disconnected: volume 0, not playing. *)
Lemma quiet_bars_rest_disconnected :
  let r := Visualizer.bar 200 100 0 false (1 # 2) 3 in
  (5 <= Visualizer.height r < 10)%Q
  ∧ (false = false → (Visualizer.height r == 5)%Q).
Proof.
  apply (quiet_bars_rest 200 100 0 false (1 # 2) 3);
    [discriminate|split; [discriminate|reflexivity]].
Defined.

End Scenarios.
